(** * Slab placement engine of the renterd worker

    A shallow embedding of [parallelUploadSlab], [uploadSlab],
    [parallelDownloadSlab], [downloadSlab], [slabsForDownload],
    [deleteSlabs] and [migrateSlab] (package worker), with the goroutine
    fan-out modelled as a pool of publications from which a schedule picks
    the next one received. *)

From Stdlib Require Import ZArith Lia String.
From Stdlib.Strings Require Import Byte.
From stdpp Require Import base numbers option list gmap sets.

Open Scope Z_scope.

(** ** Data model *)

(** [types.PublicKey], [types.Hash256] and [types.FileContractID] are 32-byte
    arrays; they are read here as the 256-bit number they spell, so that the
    Go zero value [types.Hash256{}] is [0]. *)
Abbreviation PublicKey := N (only parsing).
Abbreviation Hash256 := N (only parsing).
Abbreviation FileContractID := N (only parsing).
Abbreviation EncryptionKey := N (only parsing).

Definition zeroHash : Hash256 := 0%N.
Definition zeroKey : PublicKey := 0%N.

(** [api.ContractMetadata], as far as the worker reads it. *)
Record ContractMetadata := mkContract {
  ID : FileContractID;
  HostKey : PublicKey;
  HostIP : string
}.

(** [object.Sector] *)
Record Sector := mkSector {
  Host : PublicKey;
  Root : Hash256
}.

(** [object.Slab] *)
Record Slab := mkSlab {
  Key : EncryptionKey;
  MinShards : Z;          (* uint8 *)
  Shards : list Sector
}.

(** [object.SlabSlice] *)
Record SlabSlice := mkSlabSlice {
  slab : Slab;
  Offset : Z;             (* uint32 *)
  Length : Z              (* uint32 *)
}.

#[global] Instance ContractMetadata_inhabited : Inhabited ContractMetadata :=
  populate (mkContract 0%N 0%N EmptyString).
#[global] Instance Sector_inhabited : Inhabited Sector :=
  populate (mkSector zeroKey zeroHash).
#[global] Instance Sector_eq_dec : EqDecision Sector.
Proof. solve_decision. Defined.
#[global] Instance ContractMetadata_eq_dec : EqDecision ContractMetadata.
Proof. solve_decision. Defined.

(** ** Errors *)

(** Go error values: the sentinels of the package and of [io], opaque errors
    made by [errors.New] elsewhere, and [fmt.Errorf] wrapping with [%w]. *)
Inductive error :=
| errUnusedHost
| errDownloadSectorTimeout
| errUploadSectorTimeout
| errEOF
| errUnexpectedEOF
| errNew (msg : string)
| errWrap (msg : string) (inner : error).

#[global] Instance error_eq_dec : EqDecision error.
Proof. solve_decision. Defined.

(** [errors.Is]: the chain of wrapped errors contains the target sentinel. *)
Fixpoint errors_Is (e target : error) : bool :=
  if decide (e = target) then true
  else match e with
       | errWrap _ inner => errors_Is inner target
       | _ => false
       end.

(** Modelled from the spec: [HostError] and [HostErrorSet] are declared in a
    file of package worker that is not among the sources; a [HostError] pairs
    a host identity with an error and unwraps to that error, a
    [HostErrorSet] is the accumulated collection of them. *)
Record HostError := mkHostError {
  he_HostKey : PublicKey;
  he_Err : error
}.
Abbreviation HostErrorSet := (list HostError) (only parsing).

Definition HostError_Is (he : HostError) (target : error) : bool :=
  errors_Is (he_Err he) target.

(** What a batch returns instead of its result: the precondition failure made
    with [fmt.Errorf] / [errors.New], or the accumulated host errors. *)
Inductive batch_error :=
| NotEnoughHosts (have need : nat)
| HostErrors (errs : HostErrorSet).

(** The outcome of a call: its value, the error it returns, or a panic. *)
Inductive result (E A : Type) :=
| Ok (a : A)
| Err (e : E)
| Panic (msg : string).
Arguments Ok {E A} a.
Arguments Err {E A} e.
Arguments Panic {E A} msg.

Definition contractLockingUploadPriority : Z := 1.
Definition contractLockingDownloadPriority : Z := 2.

(** ** Channels and the collecting loop *)

(** What running a Go loop that receives from a channel comes to. *)
Inductive run (A : Type) :=
| Done (a : A)          (* the loop condition became false *)
| Blocked (a : A)       (* the receive blocks forever: nothing is published *)
| Starved (a : A).      (* the schedule ended before the loop did *)
Arguments Done {A} a.
Arguments Blocked {A} a.
Arguments Starved {A} a.

Definition run_val {A} (r : run A) : A :=
  match r with Done a | Blocked a | Starved a => a end.

(** What the code does with the state the loop leaves. *)
Definition run_map {A B} (f : A -> B) (r : run A) : run B :=
  match r with
  | Done a => Done (f a)
  | Blocked a => Blocked (f a)
  | Starved a => Starved (f a)
  end.

Section Chan.
Context {R St : Type}.

(** [resp := <-respChan]: the publications of the running tasks reach the
    channel in an order the scheduler decides; [k] picks which of the
    outstanding publications [ch] is the one received next. *)
Definition recv (k : nat) (ch : list R) : option (R * list R) :=
  let j := (k mod length ch)%nat in
  match ch !! j with
  | Some r => Some (r, delete j ch)
  | None => None
  end.

(** [for cond { resp := <-respChan; body }], where the body may start new
    tasks, whose publications join the outstanding ones. *)
Fixpoint recv_loop (cond : St -> bool) (body : R -> St -> St * list R)
    (sched : list nat) (st : St) (ch : list R) : run (St * list R) :=
  if cond st then
    match sched with
    | [] => Starved (st, ch)
    | k :: sched' =>
        match recv k ch with
        | None => Blocked (st, ch)
        | Some (r, ch') =>
            let '(st', new) := body r st in
            recv_loop cond body sched' st' (ch' ++ new)
        end
    end
  else Done (st, ch).
End Chan.

(** ** The hosts, the contract locker and the timers *)

(** The collaborators of the worker pool, as transitions of a world [W]:
    [locker.AcquireContract], the [sectorStore] a [storeProvider] hands to the
    callback of [withHost], and whether the per-task timer fires before the
    task is done. [withHost] is taken to always run its callback. *)
Class Hosts (W : Type) := {
  AcquireContract : W -> FileContractID -> Z -> option error;
  UploadSector : W -> ContractMetadata -> list byte -> W * (Hash256 * option error);
  DownloadSector : W -> ContractMetadata -> Hash256 -> Z -> Z -> W * (list byte * option error);
  timerFires : W -> ContractMetadata -> bool
}.

(** ** parallelUploadSlab *)

Record upload_req := mkUReq {
  ur_contract : ContractMetadata;
  ur_shardIndex : nat
}.

Record upload_resp := mkUResp {
  up_req : upload_req;
  up_root : Hash256;
  up_err : option error
}.

Definition is_err (e : option error) (target : error) : bool :=
  match e with
  | Some e => errors_Is e target
  | None => false
  end.

(** [slowHosts]: the index [hostsMap] gives to the host of every timeout
    entry of [errs]; [None] is the panic. *)
Definition make_hostsMap (contracts : list ContractMetadata) : gmap N nat :=
  fold_left (fun m ic => <[HostKey ic.2 := ic.1]> m) (imap pair contracts) ∅.

Fixpoint collect_slow (hostsMap : gmap N nat) (timeout : error)
    (errs : HostErrorSet) : option (list nat) :=
  match errs with
  | [] => Some []
  | he :: errs' =>
      if HostError_Is he timeout then
        match hostsMap !! he_HostKey he with
        | None => None
        | Some i => cons i <$> collect_slow hostsMap timeout errs'
        end
      else collect_slow hostsMap timeout errs'
  end.

Section Upload.
Context {W : Type} `{Hosts W}.

Record upload_state := mkUState {
  u_hostIndex : nat;
  u_inflight : Z;
  u_rem : Z;
  u_sectors : list Sector;
  u_errs : HostErrorSet;
  u_world : W;
  u_spawned : list upload_req     (* the tasks started so far, in order *)
}.

(** [go worker(r)]: what the task publishes on [respChan], and the world
    after it. The task publishes the result of the lock or of the sector
    upload; when the timer is armed and fires first, the timeout
    response is published as well. *)
Definition upload_worker (uploadSectorTimeout : Z) (shards : list (list byte))
    (r : upload_req) (w : W) : W * list upload_resp :=
  let c := ur_contract r in
  let slow :=
    if (0 <? uploadSectorTimeout) && timerFires w c
    then [mkUResp r zeroHash (Some errUploadSectorTimeout)] else [] in
  match AcquireContract w (ID c) contractLockingUploadPriority with
  | Some e => (w, mkUResp r zeroHash (Some e) :: slow)
  | None =>
      let '(w', (root, err)) :=
        UploadSector w c (default [] (shards !! ur_shardIndex r)) in
      (w', mkUResp r root err :: slow)
  end.

Definition upload_spawn (uploadSectorTimeout : Z) (shards : list (list byte))
    (contracts : list ContractMetadata) (shardIndex : nat)
    (st : upload_state) : upload_state * list upload_resp :=
  let r := mkUReq (contracts !!! u_hostIndex st) shardIndex in
  let '(w', out) := upload_worker uploadSectorTimeout shards r (u_world st) in
  (mkUState (S (u_hostIndex st)) (u_inflight st + 1) (u_rem st)
     (u_sectors st) (u_errs st) w' (u_spawned st ++ [r]), out).

(** The loop that spawns a worker for every shard. *)
Fixpoint upload_init (uploadSectorTimeout : Z) (shards : list (list byte))
    (contracts : list ContractMetadata) (idxs : list nat)
    (st : upload_state) (ch : list upload_resp)
    : upload_state * list upload_resp :=
  match idxs with
  | [] => (st, ch)
  | i :: idxs' =>
      let '(st', out) := upload_spawn uploadSectorTimeout shards contracts i st in
      upload_init uploadSectorTimeout shards contracts idxs' st' (ch ++ out)
  end.

Definition upload_cond (st : upload_state) : bool :=
  (0 <? u_rem st) && (0 <? u_inflight st).

(** The body of the collecting loop, for the response received. *)
Definition upload_body (uploadSectorTimeout : Z) (shards : list (list byte))
    (contracts : list ContractMetadata) (resp : upload_resp)
    (st : upload_state) : upload_state * list upload_resp :=
  let inflight :=
    if is_err (up_err resp) errUploadSectorTimeout
    then u_inflight st else u_inflight st - 1 in
  let st := mkUState (u_hostIndex st) inflight (u_rem st) (u_sectors st)
              (u_errs st) (u_world st) (u_spawned st) in
  let idx := ur_shardIndex (up_req resp) in
  match up_err resp with
  | Some e =>
      let st := mkUState (u_hostIndex st) (u_inflight st) (u_rem st)
                  (u_sectors st)
                  (u_errs st ++ [mkHostError (HostKey (ur_contract (up_req resp))) e])
                  (u_world st) (u_spawned st) in
      if decide (u_hostIndex st < length contracts)%nat
      then upload_spawn uploadSectorTimeout shards contracts idx st
      else (st, [])
  | None =>
      if decide (Root (u_sectors st !!! idx) = zeroHash) then
        (mkUState (u_hostIndex st) (u_inflight st) (u_rem st - 1)
           (<[idx := mkSector (HostKey (ur_contract (up_req resp))) (up_root resp)]>
              (u_sectors st))
           (u_errs st) (u_world st) (u_spawned st), [])
      else (st, [])
  end.

Record upload_result := mkUResult {
  ures : result batch_error (list Sector * list nat);
  ures_world : W;
  ures_spawned : list upload_req
}.

(** What is returned once the loop is left. *)
Definition upload_finish (contracts : list ContractMetadata)
    (st : upload_state) : upload_result :=
  if decide (0 < u_rem st) then
    mkUResult (Err (HostErrors (u_errs st))) (u_world st) (u_spawned st)
  else
    match collect_slow (make_hostsMap contracts) errUploadSectorTimeout (u_errs st) with
    | Some slowHosts =>
        mkUResult (Ok (u_sectors st, slowHosts)) (u_world st) (u_spawned st)
    | None =>
        mkUResult (Panic "host not found in hostsmap") (u_world st) (u_spawned st)
    end.

Definition upload_start (shards : list (list byte)) (w : W) : upload_state :=
  mkUState 0 0 (Z.of_nat (length shards))
    (replicate (length shards) (mkSector zeroKey zeroHash)) [] w [].

Definition parallelUploadSlab (shards : list (list byte))
    (contracts : list ContractMetadata) (uploadSectorTimeout : Z)
    (sched : list nat) (w : W) : run upload_result :=
  if decide (length contracts < length shards)%nat then
    Done (mkUResult (Err (NotEnoughHosts (length contracts) (length shards))) w [])
  else
    let p := upload_init uploadSectorTimeout shards contracts
               (seq 0 (length shards)) (upload_start shards w) [] in
    run_map (fun q => upload_finish contracts q.1)
      (recv_loop upload_cond (upload_body uploadSectorTimeout shards contracts)
         sched p.1 p.2).
End Upload.

(** ** The codec *)

(** Modelled from the spec: the erasure and encryption codec is package
    object of this repository, which is not among the sources. The methods
    [Slab.Encode], [Slab.Encrypt], [SlabSlice.Decrypt], [Slab.Reconstruct],
    [SlabSlice.Recover] and [SlabSlice.SectorRegion] are deterministic
    functions of the slab (its key and shard counts) and of the shards;
    none of them changes the slab. *)
Record Codec := mkCodec {
  Encode : Slab -> list byte -> nat -> list (list byte);
  Encrypt : Slab -> list (list byte) -> list (list byte);
  Decrypt : SlabSlice -> list (list byte) -> list (list byte);
  Reconstruct : Slab -> list (list byte) -> error + list (list byte);
  Recover : SlabSlice -> list (list byte) -> list byte * option error;
  SectorRegion : SlabSlice -> Z * Z
}.

(** ** parallelDownloadSlab *)

Record download_resp := mkDResp {
  dp_hostIndex : nat;
  dp_shard : list byte;
  dp_err : option error
}.

(** The slot the collecting loop fills: the first shard of the slab on the
    host whose slot is still empty. [None] when there is none. *)
Fixpoint fill_shard (hk : PublicKey) (data : list byte) (secs : list Sector)
    (shards : list (list byte)) : option (list (list byte)) :=
  match secs, shards with
  | s :: secs', sh :: shards' =>
      if decide (Host s = hk /\ length sh = 0%nat) then Some (data :: shards')
      else cons sh <$> fill_shard hk data secs' shards'
  | _, _ => None
  end.

Section Download.
Context {W : Type} `{Hosts W} (codec : Codec).

Record download_state := mkDState {
  d_hostIndex : nat;
  d_inflight : Z;
  d_rem : Z;                          (* uint8 *)
  d_shards : list (list byte);
  d_errs : HostErrorSet;
  d_world : W;
  d_spawned : list nat                (* the host indices contacted so far *)
}.

Definition download_worker (downloadSectorTimeout : Z) (ss : SlabSlice)
    (contracts : list ContractMetadata) (hostIndex : nat) (w : W)
    : W * list download_resp :=
  let c := contracts !!! hostIndex in
  let slow :=
    if (0 <? downloadSectorTimeout) && timerFires w c
    then [mkDResp hostIndex [] (Some errDownloadSectorTimeout)] else [] in
  match AcquireContract w (ID c) contractLockingDownloadPriority with
  | Some e => (w, mkDResp hostIndex [] (Some e) :: slow)
  | None =>
      match List.find (fun s => bool_decide (Host s = HostKey c)) (Shards (slab ss)) with
      | None =>
          (w, mkDResp hostIndex [] (Some (errWrap "host %v, err: %w" errUnusedHost)) :: slow)
      | Some shard =>
          let '(offset, length) := SectorRegion codec ss in
          let '(w', (data, err)) := DownloadSector w c (Root shard) offset length in
          (w', mkDResp hostIndex data err :: slow)
      end
  end.

Definition download_spawn (downloadSectorTimeout : Z) (ss : SlabSlice)
    (contracts : list ContractMetadata) (st : download_state)
    : download_state * list download_resp :=
  let '(w', out) :=
    download_worker downloadSectorTimeout ss contracts (d_hostIndex st) (d_world st) in
  (mkDState (S (d_hostIndex st)) (d_inflight st + 1) (d_rem st) (d_shards st)
     (d_errs st) w' (d_spawned st ++ [d_hostIndex st]), out).

Fixpoint download_init (downloadSectorTimeout : Z) (ss : SlabSlice)
    (contracts : list ContractMetadata) (count : nat)
    (st : download_state) (ch : list download_resp)
    : download_state * list download_resp :=
  match count with
  | O => (st, ch)
  | S count' =>
      let '(st', out) := download_spawn downloadSectorTimeout ss contracts st in
      download_init downloadSectorTimeout ss contracts count' st' (ch ++ out)
  end.

Definition download_cond (st : download_state) : bool :=
  (0 <? d_rem st) && (0 <? d_inflight st).

Definition download_body (downloadSectorTimeout : Z) (ss : SlabSlice)
    (contracts : list ContractMetadata) (resp : download_resp)
    (st : download_state) : download_state * list download_resp :=
  let inflight :=
    if is_err (dp_err resp) errDownloadSectorTimeout
    then d_inflight st else d_inflight st - 1 in
  let st := mkDState (d_hostIndex st) inflight (d_rem st) (d_shards st)
              (d_errs st) (d_world st) (d_spawned st) in
  let hk := HostKey (contracts !!! dp_hostIndex resp) in
  match dp_err resp with
  | Some e =>
      let st := mkDState (d_hostIndex st) (d_inflight st) (d_rem st) (d_shards st)
                  (d_errs st ++ [mkHostError hk e]) (d_world st) (d_spawned st) in
      if decide (d_hostIndex st < length contracts)%nat
      then download_spawn downloadSectorTimeout ss contracts st
      else (st, [])
  | None =>
      match fill_shard hk (dp_shard resp) (Shards (slab ss)) (d_shards st) with
      | Some shards' =>
          (mkDState (d_hostIndex st) (d_inflight st) (d_rem st - 1) shards'
             (d_errs st) (d_world st) (d_spawned st), [])
      | None => (st, [])
      end
  end.

Record download_result := mkDResult {
  dres : result batch_error (list (list byte) * list nat);
  dres_world : W;
  dres_spawned : list nat
}.

Definition download_finish (contracts : list ContractMetadata)
    (st : download_state) : download_result :=
  if decide (0 < d_rem st) then
    mkDResult (Err (HostErrors (d_errs st))) (d_world st) (d_spawned st)
  else
    match collect_slow (make_hostsMap contracts) errDownloadSectorTimeout (d_errs st) with
    | Some slowHosts =>
        mkDResult (Ok (d_shards st, slowHosts)) (d_world st) (d_spawned st)
    | None =>
        mkDResult (Panic "host not found in hostsmap") (d_world st) (d_spawned st)
    end.

Definition download_start (ss : SlabSlice) (w : W) : download_state :=
  mkDState 0 0 (MinShards (slab ss))
    (replicate (length (Shards (slab ss))) []) [] w [].

Definition parallelDownloadSlab (ss : SlabSlice)
    (contracts : list ContractMetadata) (downloadSectorTimeout : Z)
    (sched : list nat) (w : W) : run download_result :=
  if decide (Z.of_nat (length contracts) < MinShards (slab ss)) then
    Done (mkDResult (Err (NotEnoughHosts (length contracts)
                            (Z.to_nat (MinShards (slab ss))))) w [])
  else
    let p := download_init downloadSectorTimeout ss contracts
               (Z.to_nat (MinShards (slab ss))) (download_start ss w) [] in
    run_map (fun q => download_finish contracts q.1)
      (recv_loop download_cond (download_body downloadSectorTimeout ss contracts)
         sched p.1 p.2).
End Download.

(** ** uploadSlab and downloadSlab *)




Section UploadDownloadSlab.
Context {W : Type} `{Hosts W} (codec : Codec).
(** [rhpv2.SectorSize], of a library outside the repository. *)
Variable SectorSize : Z.




End UploadDownloadSlab.

(** ** Slices over shared backing arrays *)

Module GoSlice.
Section Heap.
Context {A : Type}.

(** The backing arrays, by address. *)
Local Abbreviation heap := (list (list A)).

(** A slice header: the array it points into, where it starts there and
  its length. *)
Record slice := mk { ptr : nat; off : nat; len : nat }.

Definition read (h : heap) (s : slice) : option (list A) :=
match h !! ptr s with
| Some a => Some (take (len s) (drop (off s) a))
| None => None
end.

(** [s[i]]; [None] is the index-out-of-range panic. *)
Definition index (h : heap) (s : slice) (i : nat) : option A :=
if decide (i < len s)%nat then
  match h !! ptr s with
  | Some a => a !! (off s + i)%nat
  | None => None
  end
else None.

(** [s[i] = v] *)
Definition store (h : heap) (s : slice) (i : nat) (v : A) : option heap :=
if decide (i < len s)%nat then
  match h !! ptr s with
  | Some a => Some (<[ptr s := <[(off s + i)%nat := v]> a]> h)
  | None => None
  end
else None.

(** [append([]T(nil), s...)]: a fresh array holding the elements of [s]. *)
Definition copy_of (h : heap) (s : slice) : option (heap * slice) :=
match read h s with
| Some l => Some (h ++ [l], mk (length h) 0 (length l))
| None => None
end.

(** [s[i:]] and [s[:j]] *)
Definition from (i : nat) (s : slice) : slice :=
mk (ptr s) (off s + i) (len s - i).
Definition upto (j : nat) (s : slice) : slice :=
mk (ptr s) (off s) j.
End Heap.
Abbreviation heap A := (list (list A)) (only parsing).
End GoSlice.

(** ** slabsForDownload *)

Definition wrap32 (z : Z) : Z := z mod 2 ^ 32.
Definition wrap64 (z : Z) : Z := (z + 2 ^ 63) mod 2 ^ 64 - 2 ^ 63.

(** Both loops of [slabsForDownload]: walk the slices while the span left is
    longer than the slice; the index at which the loop breaks, if it does,
    and the span left then. *)
Fixpoint span_scan (l : list SlabSlice) (i : nat) (left : Z) : option nat * Z :=
  match l with
  | [] => (None, left)
  | ss :: l' =>
      if decide (left <= Length ss) then (Some i, left)
      else span_scan l' (S i) (wrap64 (left - Length ss))
  end.

Definition set_Offset (ss : SlabSlice) (o : Z) : SlabSlice :=
  mkSlabSlice (slab ss) o (Length ss).
Definition set_Length (ss : SlabSlice) (l : Z) : SlabSlice :=
  mkSlabSlice (slab ss) (Offset ss) l.

Definition slabsForDownload (h : GoSlice.heap SlabSlice) (slabs : GoSlice.slice)
    (offset length : Z) : option (GoSlice.heap SlabSlice * GoSlice.slice) :=
  (* mutate a copy *)
  '(h, slabs) ← GoSlice.copy_of h slabs;
  l ← GoSlice.read h slabs;
  let '(brk, firstOffset) := span_scan l 0 offset in
  let slabs := match brk with Some i => GoSlice.from i slabs | None => slabs end in
  s0 ← GoSlice.index h slabs 0;
  h ← GoSlice.store h slabs 0
        (set_Offset s0 (wrap32 (Offset s0 + wrap32 firstOffset)));
  s0 ← GoSlice.index h slabs 0;
  h ← GoSlice.store h slabs 0
        (set_Length s0 (wrap32 (Length s0 - wrap32 firstOffset)));
  l ← GoSlice.read h slabs;
  let '(brk, lastLength) := span_scan l 0 length in
  let slabs := match brk with Some i => GoSlice.upto (i + 1) slabs | None => slabs end in
  sl ← GoSlice.index h slabs (GoSlice.len slabs - 1);
  h ← GoSlice.store h slabs (GoSlice.len slabs - 1) (set_Length sl (wrap32 lastLength));
  Some (h, slabs).

(** ** deleteSlabs *)

(** A [sectorStore] as [deleteSlabs] uses it. *)
Record sectorStore := mkStore {
  st_PublicKey : PublicKey;
  st_DeleteSectors : list Hash256 -> option error
}.

Definition rootsBysectorStore (slabs : list Slab) : gmap N (list N) :=
  fold_left
    (fun m s =>
       fold_left
         (fun m sector =>
            <[Host sector := default [] (m !! Host sector) ++ [Root sector]]> m)
         (Shards s) m)
    slabs ∅.

Record delete_result := mkDelResult {
  del_err : option (list HostError);        (* [nil] or the HostErrorSet *)
  del_calls : list (PublicKey * list Hash256) (* the DeleteSectors calls made *)
}.

(** One goroutine per element of [hosts]; each sends its [*HostError] or [nil]
    on [errChan], and [len(hosts)] values are received. *)
Definition deleteSlabs (slabs : list Slab) (hosts : list sectorStore)
    (sched : list nat) : run delete_result :=
  let roots := rootsBysectorStore slabs in
  let rootsOf (h : sectorStore) := default [] (roots !! st_PublicKey h) in
  let calls := (fun h => (st_PublicKey h, rootsOf h)) <$> hosts in
  let ch := (fun h => mkHostError (st_PublicKey h) <$> st_DeleteSectors h (rootsOf h)) <$> hosts in
  let body (r : option HostError) (st : nat * list HostError) :=
    ((st.1 - 1)%nat,
     match r with Some e => st.2 ++ [e] | None => st.2 end, @nil (option HostError)) in
  let finish (p : nat * list HostError * list (option HostError)) :=
    mkDelResult (if decide (0 < length p.1.2)%nat then Some p.1.2 else None) calls in
  run_map finish
    (recv_loop (fun st : nat * list HostError => bool_decide (0 < st.1)%nat)
       body sched (length hosts, []) ch).

(** ** migrateSlab *)

(** The pass over [s.Shards] that collects the indices to migrate: a shard on
    a host outside [hostsMap], or on a host an earlier shard already uses. *)
Fixpoint scan_shards (hostsMap : gset N) (shards : list Sector) (i : nat)
    (usedMap : gset N) (shardIndices : list nat) : list nat * gset N :=
  match shards with
  | [] => (shardIndices, usedMap)
  | shard :: shards' =>
      if decide (Host shard ∉ hostsMap) then
        scan_shards hostsMap shards' (S i) usedMap (shardIndices ++ [i])
      else if decide (Host shard ∈ usedMap) then
        scan_shards hostsMap shards' (S i) usedMap (shardIndices ++ [i])
      else
        scan_shards hostsMap shards' (S i) ({[Host shard]} ∪ usedMap) shardIndices
  end.

(** [for i, si := range shardIndices { shards[i] = shards[si] }], in place. *)
Fixpoint compact_shards (shardIndices : list nat) (i : nat)
    (shards : list (list byte)) : list (list byte) :=
  match shardIndices with
  | [] => shards
  | si :: rest =>
      compact_shards rest (S i) (<[i := default [] (shards !! si)]> shards)
  end.

(** [filtered := contracts[:0]] followed by the appends: [filtered] shares the
    backing array of [contracts], so every append writes into that array.
    The state is the array and the length of [filtered]. *)
Fixpoint filter_in_place (usedMap : gset N) (todo : list ContractMetadata)
    (arr : list ContractMetadata) (k : nat) : list ContractMetadata * nat :=
  match todo with
  | [] => (arr, k)
  | c :: todo' =>
      if decide (HostKey c ∈ usedMap) then filter_in_place usedMap todo' arr k
      else filter_in_place usedMap todo' (<[k := c]> arr) (S k)
  end.

Definition swap_cells {A} `{Inhabited A} (arr : list A) (i j : nat) : list A :=
  <[j := arr !!! i]> (<[i := arr !!! j]> arr).

(** [frand.Shuffle(n, swap)], of a library outside the repository: for [i]
    from [n-1] down to [1] it swaps the cells [i] and [j], with [j] drawn
    from [[0, i]]. [draws] are the numbers drawn. *)
Fixpoint shuffle_from {A} `{Inhabited A} (i : nat) (draws : list nat)
    (arr : list A) : list A :=
  match i with
  | O => arr
  | S i' =>
      let j := (hd 0%nat draws mod (i + 1))%nat in
      shuffle_from i' (tl draws) (swap_cells arr i j)
  end.

Definition Shuffle {A} `{Inhabited A} (n : nat) (draws : list nat)
    (arr : list A) : list A :=
  shuffle_from (n - 1) draws arr.

(** [slow[contracts[h].HostKey]++] for every [h] of [slowHosts], the
    contracts being read from the array as it is by then. *)
Definition count_slow (arr : list ContractMetadata) (slowHosts : list nat)
    : gmap N nat :=
  fold_left
    (fun slow h =>
       let hk := HostKey (arr !!! h) in
       <[hk := S (default 0%nat (slow !! hk))]> slow)
    slowHosts ∅.

(** [sort.SliceStable]: the stable sort by [key], as an insertion sort. *)
Fixpoint insert_stable {A} (key : A -> nat) (x : A) (l : list A) : list A :=
  match l with
  | [] => [x]
  | y :: l' =>
      if decide (key x < key y)%nat then x :: y :: l'
      else y :: insert_stable key x l'
  end.

Definition SliceStable {A} (key : A -> nat) (l : list A) : list A :=
  fold_left (fun sorted x => insert_stable key x sorted) l [].

(** The replacement hosts as [migrateSlab] builds them: the array of
    [contracts] after the filter, the shuffle and the sort, and the slice
    [filtered] (its first [k] cells) that is passed to the upload. *)
Definition replacement_hosts (usedMap : gset N) (contracts : list ContractMetadata)
    (slowHosts : list nat) (draws : list nat)
    : list ContractMetadata * list ContractMetadata :=
  let '(arr, k) := filter_in_place usedMap contracts contracts 0 in
  let arr := Shuffle k draws arr in
  let slow := count_slow arr slowHosts in
  let arr := SliceStable (fun c => default 0%nat (slow !! HostKey c)) arr in
  (arr, take k arr).

(** [for i, si := range shardIndices { s.Shards[si] = uploaded[i] }] *)
Fixpoint overwrite_shards (shardIndices : list nat) (uploaded : list Sector)
    (shards : list Sector) : list Sector :=
  match shardIndices, uploaded with
  | si :: rest, u :: uploaded' => overwrite_shards rest uploaded' (<[si := u]> shards)
  | _, _ => shards
  end.

Inductive migrate_error :=
| NotEnoughShards (have need : Z)
    (* "not enough hosts to download unhealthy shard, %d<%d" *)
| NotEnoughMigrationHosts
    (* "not enough hosts to migrate shard" *)
| DownloadFailed (e : batch_error)
| ReconstructFailed (e : error)
| UploadFailed (e : batch_error).

Section Migrate.
Context {W : Type} `{Hosts W} (codec : Codec).
Variable SectorSize : Z.

Record migrate_result := mkMResult {
  mr_res : result migrate_error unit;
  mr_slab : Slab;                            (* [*s] after the call *)
  mr_contracts : list ContractMetadata;      (* the caller's array after it *)
  mr_world : W;
  mr_downloads : list nat;                   (* download tasks started *)
  mr_uploads : list upload_req;              (* upload tasks started *)
  mr_candidates : option (list ContractMetadata)
    (* the list passed to the re-upload, when it is reached *)
}.

Definition migrateSlab (s : Slab) (contracts : list ContractMetadata)
    (downloadSectorTimeout uploadSectorTimeout : Z)
    (draws : list nat) (sched_d sched_u : list nat) (w : W)
    : run migrate_result :=
  let hostsMap : gset N := list_to_set (HostKey <$> contracts) in
  let '(shardIndices, usedMap) := scan_shards hostsMap (Shards s) 0 ∅ [] in
  if decide (length shardIndices = 0)%nat then
    Done (mkMResult (Ok ()) s contracts w [] [] None)
  else if decide (Z.of_nat (length (Shards s)) - Z.of_nat (length shardIndices)
                  < MinShards s) then
    Done (mkMResult
            (Err (NotEnoughShards
                    (Z.of_nat (length (Shards s)) - Z.of_nat (length shardIndices))
                    (MinShards s)))
            s contracts w [] [] None)
  else if decide (length contracts < length shardIndices)%nat then
    Done (mkMResult (Err NotEnoughMigrationHosts) s contracts w [] [] None)
  else
    let ss := mkSlabSlice s 0 (wrap32 (MinShards s * SectorSize)) in
    let after_download (d : download_result) : run migrate_result :=
      match dres d with
      | Err e =>
          Done (mkMResult (Err (DownloadFailed e)) s contracts
                  (dres_world d) (dres_spawned d) [] None)
      | Panic msg =>
          Done (mkMResult (Panic msg) s contracts
                  (dres_world d) (dres_spawned d) [] None)
      | Ok (shards, slowHosts) =>
          let shards := Decrypt codec ss shards in
          match Reconstruct codec s shards with
          | inl e =>
              Done (mkMResult (Err (ReconstructFailed e)) s contracts
                      (dres_world d) (dres_spawned d) [] None)
          | inr shards =>
              let shards := Encrypt codec s shards in
              let shards :=
                take (length shardIndices) (compact_shards shardIndices 0 shards) in
              let '(arr, filtered) :=
                replacement_hosts usedMap contracts slowHosts draws in
              let after_upload (u : upload_result) : migrate_result :=
                match ures u with
                | Err e =>
                    mkMResult (Err (UploadFailed e)) s arr (ures_world u)
                      (dres_spawned d) (ures_spawned u) (Some filtered)
                | Panic msg =>
                    mkMResult (Panic msg) s arr (ures_world u)
                      (dres_spawned d) (ures_spawned u) (Some filtered)
                | Ok (uploaded, _) =>
                    mkMResult (Ok ())
                      (mkSlab (Key s) (MinShards s)
                         (overwrite_shards shardIndices uploaded (Shards s)))
                      arr (ures_world u)
                      (dres_spawned d) (ures_spawned u) (Some filtered)
                end in
              run_map after_upload
                (parallelUploadSlab shards filtered uploadSectorTimeout
                   sched_u (dres_world d))
          end
      end in
    match parallelDownloadSlab codec ss contracts downloadSectorTimeout sched_d w with
    | Done d => after_download d
    | Blocked d =>
        Blocked (mkMResult (Ok ()) s contracts (dres_world d) (dres_spawned d) [] None)
    | Starved d =>
        Starved (mkMResult (Ok ()) s contracts (dres_world d) (dres_spawned d) [] None)
    end.
End Migrate.

(** ** Scripted hosts *)

(** A world in which every host, the locker and the timers answer by a fixed
    script; nothing is stored. *)
Record Oracle := mkOracle {
  o_lock : FileContractID -> option error;
  o_upload : PublicKey -> list byte -> Hash256 * option error;
  o_download : PublicKey -> Hash256 -> Z -> Z -> list byte * option error;
  o_slow : PublicKey -> bool
}.

#[global] Instance Oracle_Hosts : Hosts Oracle := {|
  AcquireContract w id _ := o_lock w id;
  UploadSector w c data := (w, o_upload w (HostKey c) data);
  DownloadSector w c root offset length := (w, o_download w (HostKey c) root offset length);
  timerFires w c := o_slow w (HostKey c)
|}.

(** ** Invariants of the collecting loops *)





(** ** Concrete hosts and contracts used in the examples *)

Definition hostA : ContractMetadata := mkContract 101 1 "a".
Definition hostB : ContractMetadata := mkContract 102 2 "b".
Definition hostC : ContractMetadata := mkContract 103 3 "c".


(** ** Reading a batch of responses *)

Definition up_timeout (r : upload_resp) : bool :=
  is_err (up_err r) errUploadSectorTimeout.


(** ** A codec for slabs with one data shard *)

Definition xor_bits (a b : bool * (bool * (bool * (bool * (bool * (bool * (bool * bool)))))))
    : bool * (bool * (bool * (bool * (bool * (bool * (bool * bool)))))) :=
  let '(a0, (a1, (a2, (a3, (a4, (a5, (a6, a7))))))) := a in
  let '(b0, (b1, (b2, (b3, (b4, (b5, (b6, b7))))))) := b in
  (xorb a0 b0, (xorb a1 b1, (xorb a2 b2, (xorb a3 b3,
   (xorb a4 b4, (xorb a5 b5, (xorb a6 b6, xorb a7 b7))))))).

Definition xor_byte (k b : byte) : byte :=
  Byte.of_bits (xor_bits (Byte.to_bits k) (Byte.to_bits b)).

Definition key_byte (key : EncryptionKey) : byte :=
  default x00 (Byte.of_N (key mod 256)%N).

Definition cipher (key : EncryptionKey) (shards : list (list byte)) : list (list byte) :=
  (fun shard : list byte => xor_byte (key_byte key) <$> shard) <$> shards.

(** The bytes [[offset, offset+length)] of a sector. *)
Definition region (offset length : Z) (data : list byte) : list byte :=
  take (Z.to_nat length) (drop (Z.to_nat offset) data).

Definition first_shard (shards : list (list byte)) : option (list byte) :=
  List.find (fun sh => bool_decide (sh <> [])) shards.

(** With [MinShards = 1] every shard is a copy of the plaintext buffer, one
    shard recovers it, and the sector region of a slice is the slice. The
    cipher is the XOR with the low byte of the key. *)
Definition mirror_codec : Codec := {|
  Encode s buf n := replicate n buf;
  Encrypt s shards := cipher (Key s) shards;
  Decrypt ss shards := cipher (Key (slab ss)) shards;
  Reconstruct s shards :=
    match first_shard shards with
    | Some d => inr ((fun _ => d) <$> shards)
    | None => inl (errNew "too few shards")
    end;
  Recover ss shards :=
    match first_shard shards with
    | Some d => (take (Z.to_nat (Length ss)) d, None)
    | None => ([], Some (errNew "too few shards"))
    end;
  SectorRegion ss := (Offset ss, Length ss)
|}.

(** ** Hosts that always succeed *)

(** A world without state in which every lock is granted, no timer fires and
    every upload returns the root 1. *)
Inductive Steady := steady.

#[global] Instance Steady_Hosts : Hosts Steady := {|
  AcquireContract _ _ _ := None;
  UploadSector _ _ _ := (steady, (1%N, None));
  DownloadSector _ _ _ _ _ := (steady, ([], None));
  timerFires _ _ := false
|}.



(** ** Slice sequences *)

(** The sum of the [Length] fields. *)
Definition total_Length (l : list SlabSlice) : Z :=
  foldr (fun ss acc => Length ss + acc) 0 l.

(** The fields of a slice are [uint32] values. *)
Definition uint32_fields (ss : SlabSlice) : Prop :=
  0 <= Offset ss < 2 ^ 32 /\ 0 <= Length ss < 2 ^ 32.

Definition slice5 : SlabSlice := mkSlabSlice (mkSlab 5%N 1 []) 0 5.
Definition slice0 : SlabSlice := mkSlabSlice (mkSlab 6%N 1 []) 0 0.

(** ** Ownership of roots *)

(** The roots a host owns across the slabs, in the order of the slabs and of
    their shards. *)
Definition roots_owned (hk : PublicKey) (slabs : list Slab) : list Hash256 :=
  Root <$> filter (fun sector => Host sector = hk) (slabs ≫= Shards).

(** What the session [h] answers to the deletion of what its host owns. *)
Definition delete_outcome (slabs : list Slab) (h : sectorStore) : option HostError :=
  mkHostError (st_PublicKey h) <$> st_DeleteSectors h (roots_owned (st_PublicKey h) slabs).

(** The calls made to the host [hk]. *)
Definition calls_to (hk : PublicKey) (res : delete_result)
    : list (PublicKey * list Hash256) :=
  filter (fun c => c.1 = hk) (del_calls res).

(** A session that deletes whatever it is asked to, and one that refuses. *)
Definition willing (hk : PublicKey) : sectorStore := mkStore hk (fun _ => None).
Definition unwilling (hk : PublicKey) : sectorStore :=
  mkStore hk (fun _ => Some (errNew "refused")).

(** ** Migration examples *)

(** The candidates that no surviving shard uses. *)
Definition spare_hosts (usedMap : gset N) (contracts : list ContractMetadata)
    : list ContractMetadata :=
  filter (fun c => HostKey c ∉ usedMap) contracts.

(** The sanity checks of [migrateSlab] are what failed. *)
Definition sanity_failure (e : migrate_error) : Prop :=
  match e with
  | NotEnoughShards _ _ | NotEnoughMigrationHosts => True
  | _ => False
  end.

(** A slab that one shard recovers, with a shard on the host of [hostA] and
    one on a host (key 4) that is not a candidate any more. *)
Definition stale_slab : Slab :=
  mkSlab 5%N 1 [mkSector 1%N 9%N; mkSector 4%N 8%N].

(** Every lock is granted, every upload returns the root 7 and every
    download the byte 1; the timer of the host with key [slow] fires. *)
Definition sluggish (slow : PublicKey) : Oracle :=
  mkOracle (fun _ => None) (fun _ _ => (7%N, None))
    (fun _ _ _ _ => ([x01], None)) (fun hk => (hk =? slow)%N).

(** ** Hosts that keep what they are given *)

(** A world whose hosts store every sector they receive under its content
    hash and serve any region of a sector they hold; locks are granted and
    no timer fires. *)
Record Depot := mkDepot {
  dp_root : list byte -> Hash256;
  dp_store : gmap N (gmap N (list byte))
}.

Definition stored (w : Depot) (hk : PublicKey) (root : Hash256) : option (list byte) :=
  match dp_store w !! hk with
  | Some sectors => sectors !! root
  | None => None
  end.

Definition depot_put (w : Depot) (hk : PublicKey) (data : list byte) : Depot :=
  mkDepot (dp_root w)
    (<[hk := <[dp_root w data := data]> (default ∅ (dp_store w !! hk))]> (dp_store w)).

#[global] Instance Depot_Hosts : Hosts Depot := {|
  AcquireContract _ _ _ := None;
  UploadSector w c data := (depot_put w (HostKey c) data, (dp_root w data, None));
  DownloadSector w c root offset length :=
    match stored w (HostKey c) root with
    | Some data => (w, (region offset length data, None))
    | None => (w, ([], Some (errNew "sector not found")))
    end;
  timerFires _ _ := false
|}.




(** ** The end of the collecting loops *)

(** The errors of the locker and of the hosts are their own: none of them is
    one of the timeout errors the worker makes. *)
Definition genuine_errors (W : Type) `{Hosts W} : Prop :=
  forall (w : W) (c : ContractMetadata),
    (forall p e, AcquireContract w (ID c) p = Some e ->
       errors_Is e errUploadSectorTimeout = false /\
       errors_Is e errDownloadSectorTimeout = false) /\
    (forall data e, (UploadSector w c data).2.2 = Some e ->
       errors_Is e errUploadSectorTimeout = false) /\
    (forall root offset length e, (DownloadSector w c root offset length).2.2 = Some e ->
       errors_Is e errDownloadSectorTimeout = false).

Definition dp_timeout (r : download_resp) : bool :=
  is_err (dp_err r) errDownloadSectorTimeout.

(** The responses in the channel that are not timeouts, one per task that
    is still counted in [inflight]. *)
Definition upload_live (ch : list upload_resp) : nat :=
  length (filter (fun r => up_timeout r = false) ch).
Definition download_live (ch : list download_resp) : nat :=
  length (filter (fun r => dp_timeout r = false) ch).

Definition upload_ends_inv {W : Type} (contracts : list ContractMetadata)
    (st : @upload_state W) (ch : list upload_resp) : Prop :=
  u_inflight st = Z.of_nat (upload_live ch) /\
  (u_hostIndex st <= length contracts)%nat.

Definition download_ends_inv {W : Type} (contracts : list ContractMetadata)
    (st : @download_state W) (ch : list download_resp) : Prop :=
  d_inflight st = Z.of_nat (download_live ch) /\
  (d_hostIndex st <= length contracts)%nat.

(** What bounds the receptions still to come: two per host not yet tried,
    one per response in the channel. *)
Definition upload_left {W : Type} (contracts : list ContractMetadata)
    (st : @upload_state W) (ch : list upload_resp) : nat :=
  (2 * (length contracts - u_hostIndex st) + length ch)%nat.
Definition download_left {W : Type} (contracts : list ContractMetadata)
    (st : @download_state W) (ch : list download_resp) : nat :=
  (2 * (length contracts - d_hostIndex st) + length ch)%nat.

(** ** The order of the tasks *)

(** What the collecting loop of [parallelUploadSlab] keeps about the hosts it
    has tried: they are the first [hostIndex] candidates, in order; every
    response and every error gathered is of a candidate; every task is for
    a shard of the batch; every slot holds the zero sector or a sector on
    the host of a candidate. *)
Definition upload_order_inv {W : Type} (contracts : list ContractMetadata) (n : nat)
    (st : @upload_state W) (ch : list upload_resp) : Prop :=
  (u_hostIndex st <= length contracts)%nat /\
  ur_contract <$> u_spawned st = take (u_hostIndex st) contracts /\
  Forall (fun r => ur_shardIndex r < n)%nat (u_spawned st) /\
  length (u_sectors st) = n /\
  Forall (fun he => he_HostKey he ∈ HostKey <$> contracts) (u_errs st) /\
  Forall (fun r => ur_contract (up_req r) ∈ contracts /\
                  (ur_shardIndex (up_req r) < n)%nat) ch /\
  Forall (fun s => s = mkSector zeroKey zeroHash \/ Host s ∈ HostKey <$> contracts)
    (u_sectors st).

(** ** Candidates that can be relied on *)


(** No timeout response is ever published: the timeout is not positive, or
    no timer fires before its task is done. *)
Definition quiet_timers (W : Type) `{Hosts W} (timeout : Z) : Prop :=
  forall (w : W) c, (0 <? timeout) && timerFires w c = false.


(** The candidates from the index [i] on that are marked good. *)
Definition good_from (good : ContractMetadata -> bool)
    (contracts : list ContractMetadata) (i : nat) : nat :=
  length (filter (fun c => good c = true) (drop i contracts)).


(** A world without state in which the host with the key 2 refuses every
    upload and every download; the other hosts store what they are sent
    (root 7) and serve the byte 1; locks are granted and no timer fires. *)
Inductive Patchy := patchy.

#[global] Instance Patchy_Hosts : Hosts Patchy := {|
  AcquireContract _ _ _ := None;
  UploadSector _ c _ :=
    if decide (HostKey c = 2%N) then (patchy, (zeroHash, Some (errNew "refused")))
    else (patchy, (7%N, None));
  DownloadSector _ c _ _ _ :=
    if decide (HostKey c = 2%N) then (patchy, ([], Some (errNew "refused")))
    else (patchy, ([x01], None));
  timerFires _ _ := false
|}.

(** What the collecting loop of [parallelDownloadSlab] keeps about the hosts
    it has contacted: they are the first [hostIndex] candidates, in order;
    every response is of a candidate, and so is every error gathered. *)
Definition download_order_inv {W : Type} (contracts : list ContractMetadata) (n : nat)
    (st : @download_state W) (ch : list download_resp) : Prop :=
  (d_hostIndex st <= length contracts)%nat /\
  d_spawned st = seq 0 (d_hostIndex st) /\
  length (d_shards st) = n /\
  Forall (fun he => he_HostKey he ∈ HostKey <$> contracts) (d_errs st) /\
  Forall (fun r => dp_hostIndex r < length contracts)%nat ch.

(** ** The shards a download gathers *)

(** A host that reports success returns at least one byte. *)
Definition nonempty_downloads (W : Type) `{Hosts W} : Prop :=
  forall (w : W) c root offset length,
    (DownloadSector w c root offset length).2.2 = None ->
    (DownloadSector w c root offset length).2.1 <> [].

(** The slots that hold a shard. *)
Definition filled_slots (shards : list (list byte)) : nat :=
  length (filter (fun sh => sh <> []) shards).

Definition download_fill_inv {W : Type} (ss : SlabSlice)
    (st : @download_state W) (ch : list download_resp) : Prop :=
  d_rem st + Z.of_nat (filled_slots (d_shards st)) = MinShards (slab ss) /\
  0 <= d_rem st /\
  Forall (fun r => dp_err r = None -> dp_shard r <> []) ch.

(** ** What a slice sequence covers *)

(** The bytes a slice covers, in order: each is a slab and a position in the
    data of the slab. *)
Definition slice_span (ss : SlabSlice) : list (Slab * Z) :=
  (fun k => (slab ss, Offset ss + Z.of_nat k)) <$> seq 0 (Z.to_nat (Length ss)).

Definition slices_span (l : list SlabSlice) : list (Slab * Z) :=
  l ≫= slice_span.

(** The slice lies within the [uint32] range. *)
Definition slice_in_range (ss : SlabSlice) : Prop :=
  0 <= Offset ss /\ 0 <= Length ss /\ Offset ss + Length ss < 2 ^ 32.

(** The slice without its first [k] bytes. *)
Definition advance (ss : SlabSlice) (k : Z) : SlabSlice :=
  mkSlabSlice (slab ss) (Offset ss + k) (Length ss - k).

(** ** The contract spending recorder *)

Section Recorder.
(** [api.ContractSpending], its zero value and its method [Add] are of
    package api, which is not among the sources; so is the bus, whose
    [RecordContractSpending] takes the records and answers with an error or
    nil. *)
Context {CS B : Type}.
Variable zeroSpending : CS.
Variable Add : CS -> CS -> CS.
Variable RecordContractSpending : B -> list (FileContractID * CS) -> B * option error.

(** The fields the mutex guards: the buffer, and whether the flush timer is
    set (not nil). *)
Record contractSpendingRecorder := mkRecorder {
  contractSpendings : gmap FileContractID CS;
  contractSpendingsFlushTimer : bool
}.

Definition newContractSpendingRecorder : contractSpendingRecorder :=
  mkRecorder ∅ false.

(** [sr.Record(fcid, cs)]: the spending is added to the entry of the contract
    (the zero value when there is none), and a flush is scheduled unless one
    is. *)
Definition recorder_Record (fcid : FileContractID) (cs : CS)
    (sr : contractSpendingRecorder) : contractSpendingRecorder :=
  mkRecorder
    (<[fcid := Add (default zeroSpending (contractSpendings sr !! fcid)) cs]>
       (contractSpendings sr))
    true.

(** [sr.flush()]: one record per entry of the buffer, in the order of the
    iteration over the map; the buffer is emptied when the bus takes them. *)
Definition recorder_flush (sr : contractSpendingRecorder) (b : B)
    : contractSpendingRecorder * B :=
  if decide (0 < size (contractSpendings sr))%nat then
    let records := map_to_list (contractSpendings sr) in
    match RecordContractSpending b records with
    | (b', Some _) => (mkRecorder (contractSpendings sr) false, b')
    | (b', None) => (mkRecorder ∅ false, b')
    end
  else (mkRecorder (contractSpendings sr) false, b).

(** [sr.Stop()] *)
Definition recorder_Stop (sr : contractSpendingRecorder) (b : B)
    : contractSpendingRecorder * B :=
  if contractSpendingsFlushTimer sr then recorder_flush sr b else (sr, b).

(** What happens to a recorder: a call of [Record], the timer that [Record]
    has set firing (its callback is [flush] under the mutex; a timer that is
    not set does not fire), a call of [Stop]. *)
Inductive recorder_event :=
| EvRecord (fcid : FileContractID) (cs : CS)
| EvTimer
| EvStop.

Definition recorder_step (st : contractSpendingRecorder * B) (ev : recorder_event)
    : contractSpendingRecorder * B :=
  match ev with
  | EvRecord fcid cs => (recorder_Record fcid cs st.1, st.2)
  | EvTimer =>
      if contractSpendingsFlushTimer st.1 then recorder_flush st.1 st.2 else st
  | EvStop => recorder_Stop st.1 st.2
  end.

Definition recorder_run (evs : list recorder_event)
    (st : contractSpendingRecorder * B) : contractSpendingRecorder * B :=
  fold_left recorder_step evs st.

(** Whenever no flush is scheduled the buffer is empty. *)
Definition recorder_inv (sr : contractSpendingRecorder) : Prop :=
  contractSpendingsFlushTimer sr = false -> contractSpendings sr = ∅.
End Recorder.

(** A bus that keeps the batches it is given, and one that is down. *)
Definition keeping_bus (b : list (list (FileContractID * Z)))
    (records : list (FileContractID * Z))
    : list (list (FileContractID * Z)) * option error :=
  (b ++ [records], None).

Definition bus_down (b : list (list (FileContractID * Z)))
    (records : list (FileContractID * Z))
    : list (list (FileContractID * Z)) * option error :=
  (b, Some (errNew "bus down")).

(** ** Candidates that can be relied on for a download *)

(** The host of the contract holds a shard of the slab, the lock of the
    contract is always granted and the host serves every sector it is
    asked for. *)
Definition reliable_download (W : Type) `{Hosts W} (ss : SlabSlice)
    (c : ContractMetadata) : Prop :=
  HostKey c ∈ Host <$> Shards (slab ss) /\
  forall (w : W) root offset length,
    AcquireContract w (ID c) contractLockingDownloadPriority = None /\
    (DownloadSector w c root offset length).2.2 = None.

Definition download_successes (ch : list download_resp) : nat :=
  length (filter (fun r => dp_err r = None) ch).

(** The host [hk] has a shard of the slab whose slot is still empty. *)
Definition slot_free (secs : list Sector) (shards : list (list byte))
    (hk : PublicKey) : Prop :=
  exists i s, secs !! i = Some s /\ Host s = hk /\ shards !! i = Some [].

(** The collecting loop of [parallelDownloadSlab] when no timeout is
    published and the candidates are on hosts that differ from one another:
    every shard still needed has one task in flight while candidates are
    left, the successes to come are enough for the shards needed, and the
    slot of a host that has not answered yet is empty. [pending] counts the
    tasks of the first round that have not been started yet. *)
Definition download_retry_inv {W : Type} (good : ContractMetadata -> bool)
    (ss : SlabSlice) (contracts : list ContractMetadata) (pending : nat)
    (st : @download_state W) (ch : list download_resp) : Prop :=
  d_inflight st = Z.of_nat (length ch) /\
  (d_hostIndex st + pending <= length contracts)%nat /\
  ((d_hostIndex st < length contracts)%nat ->
   d_rem st = Z.of_nat (length ch + pending)) /\
  d_rem st <= Z.of_nat (download_successes ch + good_from good contracts (d_hostIndex st)) /\
  Forall (fun r => dp_timeout r = false) ch /\
  Forall (fun he => HostError_Is he errDownloadSectorTimeout = false) (d_errs st) /\
  NoDup (dp_hostIndex <$> ch) /\
  Forall (fun r => (dp_hostIndex r < d_hostIndex st)%nat /\
                   (dp_err r = None ->
                    HostKey (contracts !!! dp_hostIndex r) ∈ Host <$> Shards (slab ss))) ch /\
  (forall j c, contracts !! j = Some c ->
     (d_hostIndex st <= j)%nat \/ j ∈ dp_hostIndex <$> ch ->
     HostKey c ∈ Host <$> Shards (slab ss) ->
     slot_free (Shards (slab ss)) (d_shards st) (HostKey c)).

(** ** Examples for the properties above *)

(** A slab of two shards, on the hosts of [hostA] and [hostC], that one
    shard recovers. *)
Definition sound_slab : Slab :=
  mkSlab 5%N 1 [mkSector 1%N 9%N; mkSector 3%N 8%N].

(** A slab of three shards, on the hosts of [hostA], [hostB] and [hostC],
    that two shards recover. *)
Definition wide_slab : Slab :=
  mkSlab 5%N 2 [mkSector 1%N 9%N; mkSector 2%N 8%N; mkSector 3%N 7%N].


(** The candidates on the hosts 1 and 3. *)
Definition host_1_or_3 (c : ContractMetadata) : bool :=
  (HostKey c =? 1)%N || (HostKey c =? 3)%N.

(** The collecting loop of [parallelDownloadSlab] when no timeout is
    published: no response and no error gathered is a timeout. *)
Definition download_quiet_inv {W : Type} (st : @download_state W)
    (ch : list download_resp) : Prop :=
  Forall (fun r => dp_timeout r = false) ch /\
  Forall (fun he => HostError_Is he errDownloadSectorTimeout = false) (d_errs st).

(** * Properties *)

(** ** The collecting loop *)

Section ChanFacts.
Context {R St : Type}.
Implicit Types (ch : list R) (st : St).

Lemma recv_perm k ch r ch' : recv k ch = Some (r, ch') -> ch ≡ₚ r :: ch'.
Proof.
  unfold recv. destruct (ch !! _) eqn:E; [|done].
  intros [= <- <-]. by apply delete_Permutation.
Qed.

Lemma recv_nonempty k ch : ch <> [] -> is_Some (recv k ch).
Proof.
  intros Hne. unfold recv.
  destruct (ch !! (k mod length ch)%nat) eqn:E; [eauto|].
  apply lookup_ge_None in E. destruct ch as [|x ch]; [done|].
  pose proof (Nat.mod_upper_bound k (length (x :: ch))) as Hlt.
  simpl in *. lia.
Qed.

(** Total correctness of the loop from an invariant and a variant. *)
Lemma recv_loop_total (cond : St -> bool) (body : R -> St -> St * list R)
    (I : St -> list R -> Prop) (mu : St -> list R -> nat) :
  (forall st ch, I st ch -> cond st = true -> ch <> []) ->
  (forall st ch r ch', I st ch -> cond st = true -> ch ≡ₚ r :: ch' ->
     I (body r st).1 (ch' ++ (body r st).2) /\
     (mu (body r st).1 (ch' ++ (body r st).2) < mu st ch)%nat) ->
  forall sched st ch, I st ch -> (mu st ch <= length sched)%nat ->
    exists st' ch', recv_loop cond body sched st ch = Done (st', ch')
                    /\ I st' ch' /\ cond st' = false.
Proof.
  intros Hne Hstep sched.
  induction sched as [|k sched IH]; intros st ch HI Hmu; simpl.
  - destruct (cond st) eqn:Hc; [|by eauto].
    destruct (recv_nonempty 0 ch (Hne _ _ HI Hc)) as [[r ch'] Hr].
    apply recv_perm in Hr. destruct (Hstep _ _ _ _ HI Hc Hr) as [_ Hlt].
    simpl in Hmu. lia.
  - destruct (cond st) eqn:Hc; [|by eauto].
    destruct (recv_nonempty k ch (Hne _ _ HI Hc)) as [[r ch'] Hr].
    rewrite Hr. apply recv_perm in Hr.
    destruct (Hstep _ _ _ _ HI Hc Hr) as [HI' Hlt].
    destruct (body r st) as [st' new]. simpl in *.
    apply IH; [done|lia].
Qed.

(** An invariant of the loop holds of whatever state it is left in. *)
Lemma recv_loop_safe (cond : St -> bool) (body : R -> St -> St * list R)
    (I : St -> list R -> Prop) :
  (forall st ch r ch', I st ch -> cond st = true -> ch ≡ₚ r :: ch' ->
     I (body r st).1 (ch' ++ (body r st).2)) ->
  forall sched st ch, I st ch ->
    I (run_val (recv_loop cond body sched st ch)).1
      (run_val (recv_loop cond body sched st ch)).2.
Proof.
  intros Hstep sched.
  induction sched as [|k sched IH]; intros st ch HI; simpl.
  - by destruct (cond st).
  - destruct (cond st) eqn:Hc; [|done].
    destruct (recv k ch) as [[r ch']|] eqn:Hr; [|done].
    apply recv_perm in Hr. pose proof (Hstep _ _ _ _ HI Hc Hr) as HI'.
    destruct (body r st) as [st' new]. by apply IH.
Qed.
End ChanFacts.

(** ** parallelUploadSlab *)




Section UploadFacts.
Context {W : Type} `{Hosts W}.
Implicit Types (st : @upload_state W) (ch : list upload_resp).




End UploadFacts.

(** ** The collecting loops come to an end *)

Lemma upload_live_app ch1 ch2 : upload_live (ch1 ++ ch2) = (upload_live ch1 + upload_live ch2)%nat.
Proof. unfold upload_live. by rewrite filter_app, length_app. Qed.

Lemma download_live_app ch1 ch2 :
  download_live (ch1 ++ ch2) = (download_live ch1 + download_live ch2)%nat.
Proof. unfold download_live. by rewrite filter_app, length_app. Qed.

Lemma upload_live_cons r ch :
  upload_live (r :: ch) = ((if up_timeout r then 0 else 1) + upload_live ch)%nat.
Proof.
  unfold upload_live. destruct (up_timeout r) eqn:Hr.
  - by rewrite filter_cons_False by (rewrite Hr; done).
  - by rewrite filter_cons_True by done.
Qed.

Lemma download_live_cons r ch :
  download_live (r :: ch) = ((if dp_timeout r then 0 else 1) + download_live ch)%nat.
Proof.
  unfold download_live. destruct (dp_timeout r) eqn:Hr.
  - by rewrite filter_cons_False by (rewrite Hr; done).
  - by rewrite filter_cons_True by done.
Qed.

Lemma upload_live_perm ch1 ch2 : ch1 ≡ₚ ch2 -> upload_live ch1 = upload_live ch2.
Proof. intros Hp. unfold upload_live. by rewrite Hp. Qed.

Lemma download_live_perm ch1 ch2 : ch1 ≡ₚ ch2 -> download_live ch1 = download_live ch2.
Proof. intros Hp. unfold download_live. by rewrite Hp. Qed.

Section UploadEnds.
Context {W : Type} `{Hosts W}.
Implicit Types (st : @upload_state W) (ch : list upload_resp).

(** A task publishes one response that is not a timeout, and at most the
    timeout besides. *)
Lemma upload_worker_live timeout shards r (w : W) :
  genuine_errors W ->
  upload_live (upload_worker timeout shards r w).2 = 1%nat /\
  (length (upload_worker timeout shards r w).2 <= 2)%nat.
Proof.
  intros Hg. destruct (Hg w (ur_contract r)) as (Hlock & Hup & _).
  unfold upload_worker.
  destruct (AcquireContract _ _ _) as [e|] eqn:Hacq.
  - destruct (Hlock _ _ Hacq) as [He _]. simpl.
    rewrite upload_live_cons. unfold up_timeout at 1. simpl. rewrite He.
    destruct (_ && _); simpl; split; try lia; done.
  - specialize (Hup (default [] (shards !! ur_shardIndex r))).
    destruct (UploadSector _ _ _) as [w' [root err]]. simpl in *.
    rewrite upload_live_cons. unfold up_timeout at 1. simpl.
    assert (is_err err errUploadSectorTimeout = false) as ->.
    { destruct err as [e|]; [by apply Hup|done]. }
    destruct (_ && _); simpl; split; try lia; done.
Qed.

Lemma upload_spawn_ends timeout shards contracts i st ch :
  genuine_errors W -> (u_hostIndex st < length contracts)%nat ->
  upload_ends_inv contracts st ch ->
  upload_ends_inv contracts (upload_spawn timeout shards contracts i st).1
    (ch ++ (upload_spawn timeout shards contracts i st).2) /\
  (upload_left contracts (upload_spawn timeout shards contracts i st).1
     (ch ++ (upload_spawn timeout shards contracts i st).2)
   <= upload_left contracts st ch)%nat.
Proof.
  intros Hg Hlt [Hin Hhi]. unfold upload_spawn.
  destruct (upload_worker_live timeout shards
              (mkUReq (contracts !!! u_hostIndex st) i) (u_world st) Hg) as [Hlive Hlen].
  destruct (upload_worker _ _ _ _) as [w' out]. simpl in *.
  unfold upload_ends_inv, upload_left. simpl.
  rewrite upload_live_app, length_app, Hlive. split; [split|]; lia.
Qed.

Lemma upload_init_ends timeout shards contracts idxs : forall st ch,
  genuine_errors W -> (u_hostIndex st + length idxs <= length contracts)%nat ->
  upload_ends_inv contracts st ch ->
  upload_ends_inv contracts (upload_init timeout shards contracts idxs st ch).1
    (upload_init timeout shards contracts idxs st ch).2 /\
  (upload_left contracts (upload_init timeout shards contracts idxs st ch).1
     (upload_init timeout shards contracts idxs st ch).2
   <= upload_left contracts st ch)%nat.
Proof.
  induction idxs as [|i idxs IH]; intros st ch Hg Hfit HI; [done|].
  cbn [upload_init]. simpl in Hfit.
  destruct (upload_spawn_ends timeout shards contracts i st ch Hg ltac:(lia) HI)
    as [HI' Hle].
  assert (Hhi : u_hostIndex (upload_spawn timeout shards contracts i st).1
                = S (u_hostIndex st)).
  { unfold upload_spawn. by destruct (upload_worker _ _ _ _). }
  destruct (upload_spawn _ _ _ _ _) as [st' out]. simpl in *.
  destruct (IH st' (ch ++ out) Hg ltac:(lia) HI') as [HI'' Hle']. split; [done|lia].
Qed.

Lemma upload_body_ends timeout shards contracts st ch r ch' :
  genuine_errors W -> upload_ends_inv contracts st ch -> ch ≡ₚ r :: ch' ->
  upload_ends_inv contracts (upload_body timeout shards contracts r st).1
    (ch' ++ (upload_body timeout shards contracts r st).2) /\
  (upload_left contracts (upload_body timeout shards contracts r st).1
     (ch' ++ (upload_body timeout shards contracts r st).2)
   < upload_left contracts st ch)%nat.
Proof.
  intros Hg [Hin Hhi] Hperm.
  assert (Hlen : length ch = S (length ch')) by (by rewrite Hperm).
  rewrite (upload_live_perm _ _ Hperm), upload_live_cons in Hin.
  unfold upload_body. fold (up_timeout r).
  set (st0 := mkUState (u_hostIndex st) _ (u_rem st) (u_sectors st) (u_errs st)
                (u_world st) (u_spawned st)).
  assert (HI0 : upload_ends_inv contracts st0 ch').
  { subst st0. split; simpl; [|done]. destruct (up_timeout r); lia. }
  assert (Hl0 : (upload_left contracts st0 ch' < upload_left contracts st ch)%nat).
  { subst st0. unfold upload_left. simpl. lia. }
  clearbody st0. destruct (up_err r) as [e|]; simpl.
  - set (st1 := mkUState _ _ _ _ _ _ _).
    assert (HI1 : upload_ends_inv contracts st1 ch') by (subst st1; exact HI0).
    assert (Hl1 : upload_left contracts st1 ch' = upload_left contracts st0 ch') by done.
    case_decide as Hhost.
    + destruct (upload_spawn_ends timeout shards contracts
                  (ur_shardIndex (up_req r)) st1 ch' Hg Hhost HI1) as [HI2 Hl2].
      split; [done|lia].
    + simpl. rewrite app_nil_r. split; [done|lia].
  - case_decide; simpl; rewrite app_nil_r; (split; [exact HI0|exact Hl0]).
Qed.

(** With errors that are genuine, [parallelUploadSlab] returns once it has
    received two responses per candidate at most. *)
Lemma parallelUploadSlab_returns shards contracts timeout sched (w : W) :
  genuine_errors W -> (2 * length contracts <= length sched)%nat ->
  exists res, parallelUploadSlab shards contracts timeout sched w = Done res.
Proof.
  intros Hg Hsched. unfold parallelUploadSlab. case_decide as Hpre; [by eexists|].
  destruct (upload_init_ends timeout shards contracts (seq 0 (length shards))
              (upload_start shards w) [] Hg) as [HI Hle].
  { simpl. rewrite length_seq. lia. }
  { split; simpl; [done|lia]. }
  destruct (upload_init _ _ _ _ _ _) as [st1 ch]. simpl in *.
  destruct (recv_loop_total upload_cond (upload_body timeout shards contracts)
              (upload_ends_inv contracts) (upload_left contracts))
    with (sched := sched) (st := st1) (ch := ch) as (st' & ch' & Hrun & _).
  - intros st c [Hin _] Hc. unfold upload_cond in Hc.
    apply andb_true_iff in Hc as [_ Hc]. apply Z.ltb_lt in Hc.
    intros ->. unfold upload_live in Hin. simpl in Hin. lia.
  - intros st c r c' HI' _ Hp. by apply upload_body_ends.
  - done.
  - unfold upload_left in *. simpl in Hle. lia.
  - rewrite Hrun. by eexists.
Qed.
End UploadEnds.

Section DownloadEnds.
Context {W : Type} `{Hosts W} (codec : Codec).
Implicit Types (st : @download_state W) (ch : list download_resp).

Lemma download_worker_live timeout ss contracts hostIndex (w : W) :
  genuine_errors W ->
  download_live (download_worker codec timeout ss contracts hostIndex w).2 = 1%nat /\
  (length (download_worker codec timeout ss contracts hostIndex w).2 <= 2)%nat.
Proof.
  intros Hg. destruct (Hg w (contracts !!! hostIndex)) as (Hlock & _ & Hdown).
  unfold download_worker.
  destruct (AcquireContract _ _ _) as [e|] eqn:Hacq.
  - destruct (Hlock _ _ Hacq) as [_ He]. simpl.
    rewrite download_live_cons. unfold dp_timeout at 1. simpl. rewrite He.
    destruct (_ && _); simpl; split; try lia; done.
  - destruct (List.find _ _) as [shard|].
    + destruct (SectorRegion codec ss) as [offset length].
      specialize (Hdown (Root shard) offset length).
      destruct (DownloadSector _ _ _ _ _) as [w' [data err]]. simpl in *.
      rewrite download_live_cons. unfold dp_timeout at 1. simpl.
      assert (is_err err errDownloadSectorTimeout = false) as ->.
      { destruct err as [e|]; [by apply Hdown|done]. }
      destruct (_ && _); simpl; split; try lia; done.
    + simpl. rewrite download_live_cons.
      destruct (_ && _); simpl; split; try lia; done.
Qed.

Lemma download_spawn_ends timeout ss contracts st ch :
  genuine_errors W -> (d_hostIndex st < length contracts)%nat ->
  download_ends_inv contracts st ch ->
  download_ends_inv contracts (download_spawn codec timeout ss contracts st).1
    (ch ++ (download_spawn codec timeout ss contracts st).2) /\
  (download_left contracts (download_spawn codec timeout ss contracts st).1
     (ch ++ (download_spawn codec timeout ss contracts st).2)
   <= download_left contracts st ch)%nat.
Proof.
  intros Hg Hlt [Hin Hhi]. unfold download_spawn.
  destruct (download_worker_live timeout ss contracts (d_hostIndex st) (d_world st) Hg)
    as [Hlive Hlen].
  destruct (download_worker _ _ _ _ _ _) as [w' out]. simpl in *.
  unfold download_ends_inv, download_left. simpl.
  rewrite download_live_app, length_app, Hlive. split; [split|]; lia.
Qed.

Lemma download_init_ends timeout ss contracts count : forall st ch,
  genuine_errors W -> (d_hostIndex st + count <= length contracts)%nat ->
  download_ends_inv contracts st ch ->
  download_ends_inv contracts (download_init codec timeout ss contracts count st ch).1
    (download_init codec timeout ss contracts count st ch).2 /\
  (download_left contracts (download_init codec timeout ss contracts count st ch).1
     (download_init codec timeout ss contracts count st ch).2
   <= download_left contracts st ch)%nat.
Proof.
  induction count as [|count IH]; intros st ch Hg Hfit HI; [done|].
  cbn [download_init].
  destruct (download_spawn_ends timeout ss contracts st ch Hg ltac:(lia) HI)
    as [HI' Hle].
  assert (Hhi : d_hostIndex (download_spawn codec timeout ss contracts st).1
                = S (d_hostIndex st)).
  { unfold download_spawn. by destruct (download_worker _ _ _ _ _ _). }
  destruct (download_spawn _ _ _ _ _) as [st' out]. simpl in *.
  destruct (IH st' (ch ++ out) Hg ltac:(lia) HI') as [HI'' Hle']. split; [done|lia].
Qed.

Lemma download_body_ends timeout ss contracts st ch r ch' :
  genuine_errors W -> download_ends_inv contracts st ch -> ch ≡ₚ r :: ch' ->
  download_ends_inv contracts (download_body codec timeout ss contracts r st).1
    (ch' ++ (download_body codec timeout ss contracts r st).2) /\
  (download_left contracts (download_body codec timeout ss contracts r st).1
     (ch' ++ (download_body codec timeout ss contracts r st).2)
   < download_left contracts st ch)%nat.
Proof.
  intros Hg [Hin Hhi] Hperm.
  assert (Hlen : length ch = S (length ch')) by (by rewrite Hperm).
  rewrite (download_live_perm _ _ Hperm), download_live_cons in Hin.
  unfold download_body. fold (dp_timeout r).
  set (st0 := mkDState (d_hostIndex st) _ (d_rem st) (d_shards st) (d_errs st)
                (d_world st) (d_spawned st)).
  assert (HI0 : download_ends_inv contracts st0 ch').
  { subst st0. split; simpl; [|done]. destruct (dp_timeout r); lia. }
  assert (Hl0 : (download_left contracts st0 ch' < download_left contracts st ch)%nat).
  { subst st0. unfold download_left. simpl. lia. }
  clearbody st0. destruct (dp_err r) as [e|]; simpl.
  - set (st1 := mkDState _ _ _ _ _ _ _).
    assert (HI1 : download_ends_inv contracts st1 ch') by (subst st1; exact HI0).
    assert (Hl1 : download_left contracts st1 ch' = download_left contracts st0 ch') by done.
    case_decide as Hhost.
    + destruct (download_spawn_ends timeout ss contracts st1 ch' Hg Hhost HI1) as [HI2 Hl2].
      split; [done|lia].
    + simpl. rewrite app_nil_r. split; [done|lia].
  - destruct (fill_shard _ _ _ _); simpl; rewrite app_nil_r;
      (split; [exact HI0|exact Hl0]).
Qed.

Lemma parallelDownloadSlab_returns ss contracts timeout sched (w : W) :
  genuine_errors W -> (2 * length contracts <= length sched)%nat ->
  exists res, parallelDownloadSlab codec ss contracts timeout sched w = Done res.
Proof.
  intros Hg Hsched. unfold parallelDownloadSlab. case_decide as Hpre; [by eexists|].
  destruct (download_init_ends timeout ss contracts (Z.to_nat (MinShards (slab ss)))
              (download_start ss w) [] Hg) as [HI Hle].
  { simpl. lia. }
  { split; simpl; [done|lia]. }
  destruct (download_init _ _ _ _ _ _ _) as [st1 ch]. simpl in *.
  destruct (recv_loop_total download_cond (download_body codec timeout ss contracts)
              (download_ends_inv contracts) (download_left contracts))
    with (sched := sched) (st := st1) (ch := ch) as (st' & ch' & Hrun & _).
  - intros st c [Hin _] Hc. unfold download_cond in Hc.
    apply andb_true_iff in Hc as [_ Hc]. apply Z.ltb_lt in Hc.
    intros ->. unfold download_live in Hin. simpl in Hin. lia.
  - intros st c r c' HI' _ Hp. by apply download_body_ends.
  - done.
  - unfold download_left in *. simpl in Hle. lia.
  - rewrite Hrun. by eexists.
Qed.
End DownloadEnds.

(** *** The replacement hosts are as many as the candidates at most *)

Lemma filter_in_place_length usedMap todo : forall arr k,
  length (filter_in_place usedMap todo arr k).1 = length arr.
Proof.
  induction todo as [|c todo IH]; intros arr k; [done|].
  simpl. case_decide; [apply IH|]. by rewrite IH, length_insert.
Qed.

Lemma shuffle_from_length {A} `{Inhabited A} i : forall draws (arr : list A),
  length (shuffle_from i draws arr) = length arr.
Proof.
  induction i as [|i IH]; intros draws arr; [done|].
  simpl. rewrite IH. unfold swap_cells. by rewrite !length_insert.
Qed.

Lemma insert_stable_length {A} (key : A -> nat) x (l : list A) :
  length (insert_stable key x l) = S (length l).
Proof.
  induction l as [|y l IH]; [done|]. simpl. case_decide; simpl; [done|].
  by rewrite IH.
Qed.

Lemma SliceStable_length {A} (key : A -> nat) (l : list A) :
  length (SliceStable key l) = length l.
Proof.
  unfold SliceStable.
  assert (forall acc, length (fold_left (fun sorted x => insert_stable key x sorted) l acc)
                      = (length acc + length l)%nat) as Hgen.
  { induction l as [|x l IH]; intros acc; simpl; [lia|].
    rewrite IH, insert_stable_length. lia. }
  by rewrite Hgen.
Qed.

Lemma replacement_hosts_length usedMap contracts slowHosts draws :
  (length (replacement_hosts usedMap contracts slowHosts draws).2 <= length contracts)%nat.
Proof.
  unfold replacement_hosts.
  pose proof (filter_in_place_length usedMap contracts contracts 0) as Hlen.
  destruct (filter_in_place _ _ _ _) as [arr k]. simpl in *.
  rewrite length_take, SliceStable_length. unfold Shuffle.
  rewrite shuffle_from_length, Hlen. lia.
Qed.

Section MigrateEnds.
Context {W : Type} `{Hosts W} (codec : Codec) (SectorSize : Z).

Lemma migrateSlab_returns s contracts dT uT draws sd su (w : W) :
  genuine_errors W ->
  (2 * length contracts <= length sd)%nat ->
  (2 * length contracts <= length su)%nat ->
  exists res, migrateSlab codec SectorSize s contracts dT uT draws sd su w = Done res.
Proof.
  intros Hg Hsd Hsu. unfold migrateSlab.
  destruct (scan_shards _ _ _ _ _) as [shardIndices usedMap].
  case_decide; [by eexists|]. case_decide; [by eexists|]. case_decide; [by eexists|].
  destruct (parallelDownloadSlab_returns codec
              (mkSlabSlice s 0 (wrap32 (MinShards s * SectorSize))) contracts dT sd w Hg Hsd)
    as [d ->].
  destruct (dres d) as [[shards slowHosts]|e|msg]; [|by eexists..].
  destruct (Reconstruct codec s _) as [e|shards']; [by eexists|].
  pose proof (replacement_hosts_length usedMap contracts slowHosts draws) as Hlen.
  destruct (replacement_hosts _ _ _ _) as [arr filtered]. simpl in Hlen.
  destruct (parallelUploadSlab_returns
              (take (length shardIndices)
                 (compact_shards shardIndices 0 (Encrypt codec s shards')))
              filtered uT su (dres_world d) Hg ltac:(lia)) as [u ->].
  by eexists.
Qed.
End MigrateEnds.

(** C6: with fewer candidate contracts than shards [parallelUploadSlab], and
    with fewer candidate contracts than [MinShards] [parallelDownloadSlab],
    returns its error at once, whatever the schedule: no task has been
    started and the hosts are as they were. *)
Theorem too_few_hosts_fail_before_any_task {W : Type} `{Hosts W} (codec : Codec)
    (shards : list (list byte)) (ss : SlabSlice)
    (contracts : list ContractMetadata) (timeout : Z) (sched : list nat) (w : W) :
  ((length contracts < length shards)%nat ->
   parallelUploadSlab shards contracts timeout sched w
   = Done (mkUResult (Err (NotEnoughHosts (length contracts) (length shards))) w []))
  /\
  (Z.of_nat (length contracts) < MinShards (slab ss) ->
   parallelDownloadSlab codec ss contracts timeout sched w
   = Done (mkDResult (Err (NotEnoughHosts (length contracts)
                             (Z.to_nat (MinShards (slab ss))))) w [])).
Proof.
  split; intros Hlt.
  - unfold parallelUploadSlab. by rewrite decide_True.
  - unfold parallelDownloadSlab. by rewrite decide_True.
Qed.

Lemma run_val_map {A B} (f : A -> B) (r : run A) : run_val (run_map f r) = f (run_val r).
Proof. by destruct r. Qed.

Section UploadSafety.
Context {W : Type} `{Hosts W}.

End UploadSafety.


(** *** A batch in which no task is replaced *)

Section UploadBatch.
Context {W : Type} `{Hosts W}.
Implicit Types (st : @upload_state W) (ch : list upload_resp).

Lemma upload_worker_shape timeout shards r (w : W) :
  exists real,
    up_req real = r /\
    ((upload_worker timeout shards r w).2 = [real] \/
     (upload_worker timeout shards r w).2
     = [real; mkUResp r zeroHash (Some errUploadSectorTimeout)]).
Proof.
  unfold upload_worker.
  destruct (AcquireContract _ _ _) as [e|].
  - eexists (mkUResp r zeroHash (Some e)). split; [done|].
    destruct (_ && _); simpl; auto.
  - destruct (UploadSector _ _ _) as [w' [root err]].
    eexists (mkUResp r root err). split; [done|].
    destruct (_ && _); simpl; auto.
Qed.


End UploadBatch.

Section UploadBatchResult.
Context {W : Type} `{Hosts W}.

End UploadBatchResult.






(** *** The upload properties on concrete batches *)

(** Two shards for one candidate, and a slab of two data shards for one
    candidate. *)
Lemma too_few_hosts_fail_before_any_task_witness :
  parallelUploadSlab [[x00]; [x01]] [hostA] 0 [] steady
  = Done (mkUResult (Err (NotEnoughHosts 1 2)) steady [])
  /\
  parallelDownloadSlab mirror_codec (mkSlabSlice (mkSlab 5%N 2 []) 0 0) [hostA] 0 [] steady
  = Done (mkDResult (Err (NotEnoughHosts 1 2)) steady []).
Proof.
  destruct (too_few_hosts_fail_before_any_task mirror_codec [[x00]; [x01]]
              (mkSlabSlice (mkSlab 5%N 2 []) 0 0) [hostA] 0 [] steady) as [Hu Hd].
  split; [apply Hu; simpl; lia | apply Hd; simpl; lia].
Defined.







(** ** slabsForDownload *)

Lemma wrap32_id z : 0 <= z < 2 ^ 32 -> wrap32 z = z.
Proof. intros. unfold wrap32. by apply Z.mod_small. Qed.

Lemma wrap64_id z : - 2 ^ 63 <= z < 2 ^ 63 -> wrap64 z = z.
Proof. intros. unfold wrap64. rewrite Z.mod_small; lia. Qed.

Lemma total_Length_nonneg l : Forall uint32_fields l -> 0 <= total_Length l.
Proof.
  induction 1 as [|ss l [_ Hl] _ IH]; simpl; [done|]. lia.
Qed.

(** Scanning a sequence for its whole length stops at its last slice, unless
    the slices after some point are all empty. *)
Lemma span_scan_whole l : forall i,
  Forall uint32_fields l -> total_Length l < 2 ^ 63 ->
  (length l = 1%nat \/ exists s, last l = Some s /\ 0 < Length s) ->
  exists s, last l = Some s /\
    span_scan l i (total_Length l) = (Some (i + length l - 1)%nat, Length s).
Proof.
  induction l as [|ss l IH]; intros i Hf Hsum Hlast.
  { destruct Hlast as [?|(s & Hs & _)]; done. }
  apply Forall_cons in Hf as [[_ Hss] Hf].
  pose proof (total_Length_nonneg l Hf) as Hnn.
  destruct l as [|ss' l].
  - exists ss. split; [done|]. simpl. rewrite decide_True by lia.
    f_equal; [f_equal; lia|lia].
  - destruct Hlast as [Hone|(s & Hs & Hpos)]; [done|].
    change (last (ss :: ss' :: l)) with (last (ss' :: l)) in *.
    simpl in Hsum.
    destruct (IH (S i) Hf ltac:(simpl; lia) ltac:(right; eauto)) as (s' & Hs' & Hscan).
    assert (s' = s) as -> by congruence.
    assert (0 < total_Length (ss' :: l)) as Hrest.
    { clear -Hf Hs Hpos. revert Hf Hs. generalize (ss' :: l). intros k.
      induction k as [|x k IHk]; intros Hf Hs; [done|].
      apply Forall_cons in Hf as [[_ Hx] Hf].
      pose proof (total_Length_nonneg k Hf).
      destruct k as [|y k]; simpl in *; [injection Hs as ->; lia|].
      specialize (IHk Hf Hs). lia. }
    exists s. split; [done|].
    change (total_Length (ss :: ss' :: l)) with (Length ss + total_Length (ss' :: l)).
    assert (Hstep : forall x k j left,
              span_scan (x :: k) j left
              = if decide (left <= Length x) then (Some j, left)
                else span_scan k (S j) (wrap64 (left - Length x))) by done.
    rewrite Hstep, decide_False by lia.
    replace (wrap64 (Length ss + total_Length (ss' :: l) - Length ss))
      with (total_Length (ss' :: l)) by (rewrite wrap64_id; simpl in *; lia).
    rewrite Hscan. f_equal. f_equal. simpl. lia.
Qed.

Lemma store_other {A} (h h' : GoSlice.heap A) s i v p :
  GoSlice.store h s i v = Some h' -> p <> GoSlice.ptr s -> h' !! p = h !! p.
Proof.
  unfold GoSlice.store. case_decide; [|done].
  destruct (h !! GoSlice.ptr s); [|done]. intros [= <-] Hp.
  by rewrite list_lookup_insert_ne.
Qed.

Lemma slabsForDownload_keeps_arrays (h : list (list SlabSlice)) slabs offset length h' s' :
  slabsForDownload h slabs offset length = Some (h', s') ->
  forall p, (p < List.length h)%nat -> h' !! p = h !! p.
Proof.
  unfold slabsForDownload, GoSlice.copy_of.
  destruct (GoSlice.read h slabs) as [l|]; [|done]. simpl.
  destruct (GoSlice.read (h ++ [l]) _) as [l1|]; [|done]. simpl.
  destruct (span_scan l1 0 offset) as [brk firstOffset].
  set (s1 := match brk with Some i => _ | None => _ end).
  assert (Hp1 : GoSlice.ptr s1 = List.length h) by (subst s1; by destruct brk).
  destruct (GoSlice.index (h ++ [l]) s1 0) as [a0|]; [|done]. simpl.
  destruct (GoSlice.store (h ++ [l]) s1 0 _) as [h1|] eqn:Hst1; [|done]. simpl.
  destruct (GoSlice.index h1 s1 0) as [a1|]; [|done]. simpl.
  destruct (GoSlice.store h1 s1 0 _) as [h2|] eqn:Hst2; [|done]. simpl.
  destruct (GoSlice.read h2 s1) as [l2|]; [|done]. simpl.
  destruct (span_scan l2 0 length) as [brk2 lastLength].
  set (s2 := match brk2 with Some i => _ | None => _ end).
  assert (Hp2 : GoSlice.ptr s2 = List.length h)
    by (subst s2; destruct brk2; simpl; done).
  destruct (GoSlice.index h2 s2 _) as [a2|]; [|done]. simpl.
  destruct (GoSlice.store h2 s2 _ _) as [h3|] eqn:Hst3; [|done]. simpl.
  intros [= <- <-] p Hp.
  rewrite (store_other _ _ _ _ _ p Hst3) by lia.
  rewrite (store_other _ _ _ _ _ p Hst2) by lia.
  rewrite (store_other _ _ _ _ _ p Hst1) by lia.
  by rewrite lookup_app_l.
Qed.

Section FreshArray.
Context {A : Type}.
Implicit Types (h : list (list A)) (l : list A).

Lemma read_fresh h l o n :
  GoSlice.read (h ++ [l]) (GoSlice.mk (length h) o n) = Some (take n (drop o l)).
Proof. unfold GoSlice.read. simpl. by rewrite list_lookup_middle. Qed.

Lemma index_fresh h l o n i v :
  (i < n)%nat -> l !! (o + i)%nat = Some v ->
  GoSlice.index (h ++ [l]) (GoSlice.mk (length h) o n) i = Some v.
Proof.
  intros Hi Hv. unfold GoSlice.index. simpl.
  rewrite decide_True by done. by rewrite list_lookup_middle.
Qed.

Lemma store_fresh h l o n i v :
  (i < n)%nat ->
  GoSlice.store (h ++ [l]) (GoSlice.mk (length h) o n) i v
  = Some (h ++ [<[(o + i)%nat := v]> l]).
Proof.
  intros Hi. unfold GoSlice.store. simpl.
  rewrite decide_True by done. rewrite list_lookup_middle by done.
  f_equal. rewrite insert_app_r_alt by lia.
  by rewrite Nat.sub_diag.
Qed.
End FreshArray.

Lemma set_Offset_same ss : set_Offset ss (Offset ss) = ss.
Proof. by destruct ss. Qed.

Lemma set_Length_same ss : set_Length ss (Length ss) = ss.
Proof. by destruct ss. Qed.

(** C7, as amended: for a non-empty sequence of slices with [uint32] fields
    whose lengths sum to [total], and which is a single slice or ends in a
    slice of positive length, [slabsForDownload(slabs, 0, total)] returns a
    sequence equal to the original one; and whatever span is asked for, the
    call leaves every array that existed before it, the caller's among them,
    as it was. *)
Theorem slabsForDownload_whole_span (h : list (list SlabSlice))
    (slabs : GoSlice.slice) (l : list SlabSlice) (total : Z) :
  GoSlice.read h slabs = Some l ->
  l <> [] ->
  Forall uint32_fields l ->
  total = total_Length l ->
  total < 2 ^ 63 ->
  (length l = 1%nat \/ exists s, last l = Some s /\ 0 < Length s) ->
  (exists h' s', slabsForDownload h slabs 0 total = Some (h', s') /\
                 GoSlice.read h' s' = Some l) /\
  (forall offset length h' s',
     slabsForDownload h slabs offset length = Some (h', s') ->
     forall p, (p < List.length h)%nat -> h' !! p = h !! p).
Proof.
  intros Hread Hne Hf -> Hsum Hlast. split.
  2:{ intros offset length h' s'. apply slabsForDownload_keeps_arrays. }
  destruct l as [|s0 rest] eqn:El; [done|]. rewrite <- El in *.
  assert (Hs0 : uint32_fields s0).
  { rewrite El in Hf. by apply Forall_cons in Hf as [? _]. }
  destruct Hs0 as [Hoff Hlen0].
  assert (Hl0 : l !! 0%nat = Some s0) by (by rewrite El).
  assert (Hpos : (0 < length l)%nat) by (rewrite El; simpl; lia).
  unfold slabsForDownload, GoSlice.copy_of. rewrite Hread. simpl.
  rewrite read_fresh, drop_0, firstn_all. simpl.
  assert (Hscan0 : span_scan l 0 0 = (Some 0%nat, 0)).
  { rewrite El. simpl. by rewrite decide_True by lia. }
  rewrite Hscan0. unfold GoSlice.from. simpl.
  rewrite (index_fresh h l _ _ 0 s0) by (done || lia). simpl.
  rewrite store_fresh by lia. simpl.
  rewrite (wrap32_id 0), Z.add_0_r by lia.
  rewrite (wrap32_id (Offset s0)) by lia.
  rewrite set_Offset_same, (list_insert_id _ _ _ Hl0).
  rewrite (index_fresh h l _ _ 0 s0) by (done || lia). simpl.
  rewrite store_fresh by lia. simpl.
  rewrite Z.sub_0_r, (wrap32_id (Length s0)) by lia.
  rewrite set_Length_same, (list_insert_id _ _ _ Hl0).
  rewrite read_fresh, drop_0, Nat.sub_0_r, firstn_all. simpl.
  destruct (span_scan_whole l 0 Hf Hsum Hlast) as (sl & Hsl & Hscan).
  rewrite Hscan. unfold GoSlice.upto. simpl.
  assert (Hll : l !! (length l - 1)%nat = Some sl).
  { rewrite last_lookup in Hsl. by replace (length l - 1)%nat with (pred (length l)) by lia. }
  assert (Hsl32 : uint32_fields sl).
  { eapply (proj1 (Forall_forall _ _) Hf). by eapply list_elem_of_lookup_2. }
  destruct Hsl32 as [_ Hsl32].
  replace (length l - 1 + 1 - 1)%nat with (length l - 1)%nat by lia.
  rewrite (index_fresh h l _ _ _ sl) by (done || lia). simpl.
  rewrite store_fresh by lia. simpl.
  rewrite (wrap32_id (Length sl)) by lia.
  rewrite set_Length_same, (list_insert_id _ _ _ Hll).
  eexists _, _. split; [done|].
  rewrite read_fresh, drop_0. f_equal.
  replace (length l - 1 + 1)%nat with (length l) by lia. apply firstn_all.
Qed.

(** Two slices of five bytes and the span of all ten. *)
Lemma slabsForDownload_whole_span_witness :
  (exists h' s',
     slabsForDownload [[slice5; slice5]] (GoSlice.mk 0 0 2) 0 10 = Some (h', s') /\
     GoSlice.read h' s' = Some [slice5; slice5]) /\
  (forall offset length h' s',
     slabsForDownload [[slice5; slice5]] (GoSlice.mk 0 0 2) offset length = Some (h', s') ->
     forall p, (p < 1)%nat -> h' !! p = [[slice5; slice5]] !! p).
Proof.
  apply (slabsForDownload_whole_span [[slice5; slice5]] (GoSlice.mk 0 0 2)
           [slice5; slice5] 10).
  - reflexivity.
  - discriminate.
  - repeat constructor; simpl; lia.
  - reflexivity.
  - reflexivity.
  - right. exists slice5. split; [reflexivity | simpl; lia].
Defined.

(** Against C7 as stated: the lengths 5 and 0 sum to 5, and the span [(0, 5)]
    ends in the first slice; the empty slice after it is left out. *)
Lemma trailing_empty_slice_is_dropped :
  total_Length [slice5; slice0] = 5 /\
  exists h' s',
    slabsForDownload [[slice5; slice0]] (GoSlice.mk 0 0 2) 0 5 = Some (h', s') /\
    GoSlice.read h' s' = Some [slice5] /\
    GoSlice.read h' s' <> Some [slice5; slice0].
Proof.
  split; [reflexivity|]. eexists _, _.
  split_and!; [vm_compute; reflexivity | reflexivity | discriminate].
Qed.

(** ** deleteSlabs *)

Lemma roots_fold_sectors (hk : N) (sectors : list Sector) (m : gmap N (list N)) :
  default [] (fold_left
                (fun m sector =>
                   <[Host sector := default [] (m !! Host sector) ++ [Root sector]]> m)
                sectors m !! hk)
  = default [] (m !! hk) ++ (Root <$> filter (fun sector => Host sector = hk) sectors).
Proof.
  revert m. induction sectors as [|s sectors IH]; intros m; simpl.
  - by rewrite app_nil_r.
  - rewrite IH. destruct (decide (Host s = hk)) as [Heq|Hne].
    + rewrite Heq, lookup_insert_eq, filter_cons_True by done. simpl.
      by rewrite <- app_assoc.
    + rewrite lookup_insert_ne, filter_cons_False by done. done.
Qed.

Lemma roots_fold_slabs (hk : N) (slabs : list Slab) (m : gmap N (list N)) :
  default [] (fold_left
                (fun m s =>
                   fold_left
                     (fun m sector =>
                        <[Host sector := default [] (m !! Host sector) ++ [Root sector]]> m)
                     (Shards s) m)
                slabs m !! hk)
  = default [] (m !! hk) ++ (Root <$> filter (fun sector => Host sector = hk) (slabs ≫= Shards)).
Proof.
  revert m. induction slabs as [|s slabs IH]; intros m; simpl.
  - by rewrite app_nil_r.
  - rewrite IH, roots_fold_sectors, filter_app, fmap_app. by rewrite <- app_assoc.
Qed.

Lemma rootsBysectorStore_owned (hk : N) (slabs : list Slab) :
  default [] (rootsBysectorStore slabs !! hk) = roots_owned hk slabs.
Proof. unfold rootsBysectorStore. by rewrite roots_fold_slabs, lookup_empty. Qed.

(** C8, as amended: [deleteSlabs] makes exactly one [DeleteSectors] call per
    session of [hosts], in their order, each with exactly the roots the
    host of the session owns across the slabs (none when it owns none); a
    failure does not keep any of the calls from being made; the call returns
    nil exactly when every session succeeded, and otherwise the host errors
    of the sessions that failed, one each, in the order they arrived. *)
Theorem deleteSlabs_calls_every_session (slabs : list Slab)
    (hosts : list sectorStore) (sched : list nat) :
  (length hosts <= length sched)%nat ->
  exists res,
    deleteSlabs slabs hosts sched = Done res /\
    del_calls res
    = (fun h => (st_PublicKey h, roots_owned (st_PublicKey h) slabs)) <$> hosts /\
    (del_err res = None <-> Forall (fun h => delete_outcome slabs h = None) hosts) /\
    (forall errs, del_err res = Some errs ->
                  errs ≡ₚ omap (delete_outcome slabs) hosts).
Proof.
  intros Hsched. unfold deleteSlabs.
  set (ch0 := (fun h => mkHostError (st_PublicKey h) <$> st_DeleteSectors h _) <$> hosts).
  assert (Hch0 : ch0 = delete_outcome slabs <$> hosts).
  { subst ch0. apply list_fmap_ext. intros i h _. unfold delete_outcome.
    by rewrite rootsBysectorStore_owned. }
  set (body := fun (r : option HostError) (st : nat * list HostError) => _).
  destruct (recv_loop_total
              (fun st : nat * list HostError => bool_decide (0 < st.1)%nat) body
              (fun st ch => st.1 = length ch /\ st.2 ++ omap id ch ≡ₚ omap id ch0)
              (fun st ch => length ch)) with (sched := sched) (st := (length hosts, @nil HostError)) (ch := ch0)
    as (st' & ch' & Hrun & [Hcnt Hperm] & Hcond).
  - intros [cnt errs] ch [Hc _] Hpos. simpl in *.
    apply bool_decide_eq_true in Hpos. destruct ch; simpl in *; [lia|done].
  - intros [cnt errs] ch r ch' [Hc Hp] _ Hr. simpl in *.
    rewrite app_nil_r.
    assert (Hlen : length ch = S (length ch')) by (by rewrite Hr).
    rewrite Hr in Hp. split_and!; [lia| |lia].
    rewrite <- Hp. destruct r as [e|]; simpl; [|done].
    by rewrite <- app_assoc.
  - simpl. split; [by rewrite Hch0, length_fmap|done].
  - subst ch0. rewrite length_fmap. done.
  - rewrite Hrun. eexists. split; [done|]. simpl.
    apply bool_decide_eq_false in Hcond.
    assert (ch' = []) as -> by (destruct ch'; [done|simpl in *; lia]).
    simpl in Hperm. rewrite app_nil_r in Hperm.
    assert (Hom : omap id ch0 = omap (delete_outcome slabs) hosts).
    { rewrite Hch0. clear. induction hosts as [|h hosts IH]; [done|].
      simpl. destruct (delete_outcome slabs h); simpl; [f_equal|]; apply IH. }
    rewrite Hom in Hperm.
    split_and!.
    + apply list_fmap_ext. intros i h _. by rewrite rootsBysectorStore_owned.
    + case_decide as Hlen.
      * split; [done|]. intros Hall. exfalso.
        assert (omap (delete_outcome slabs) hosts = []) as Hnil.
        { clear -Hall. induction Hall as [|h hosts Hh _ IH]; [done|].
          simpl. by rewrite Hh. }
        rewrite Hnil in Hperm. apply Permutation_nil_r in Hperm.
        rewrite Hperm in Hlen. simpl in Hlen. lia.
      * split; [|done]. intros _.
        assert (st'.2 = []) as Hnil by (destruct (st'.2); [done|simpl in *; lia]).
        rewrite Hnil in Hperm. symmetry in Hperm. apply Permutation_nil_r in Hperm.
        clear -Hperm. induction hosts as [|h hosts IH]; [constructor|].
        simpl in Hperm. destruct (delete_outcome slabs h) eqn:Hh; [done|].
        constructor; auto.
    + intros errs. case_decide; [|done]. by intros [= <-].
Qed.

(** A slab on two hosts, one of which refuses the deletion. *)
Lemma deleteSlabs_calls_every_session_witness :
  exists res,
    deleteSlabs [mkSlab 5%N 1 [mkSector 1%N 9%N; mkSector 2%N 8%N]]
      [willing 1%N; unwilling 2%N] [0%nat; 0%nat] = Done res /\
    del_calls res
    = (fun h => (st_PublicKey h,
                 roots_owned (st_PublicKey h)
                   [mkSlab 5%N 1 [mkSector 1%N 9%N; mkSector 2%N 8%N]]))
        <$> [willing 1%N; unwilling 2%N] /\
    (del_err res = None <->
     Forall (fun h => delete_outcome
                        [mkSlab 5%N 1 [mkSector 1%N 9%N; mkSector 2%N 8%N]] h = None)
       [willing 1%N; unwilling 2%N]) /\
    (forall errs, del_err res = Some errs ->
       errs ≡ₚ omap (delete_outcome [mkSlab 5%N 1 [mkSector 1%N 9%N; mkSector 2%N 8%N]])
                 [willing 1%N; unwilling 2%N]).
Proof.
  apply deleteSlabs_calls_every_session. simpl. lia.
Defined.

(** Against C8 as stated: the host with key 1 owns a root and has no session
    among [hosts], so no call is made to it; the host with key 2 owns none
    and is called, with no roots. *)
Lemma calls_follow_the_sessions :
  let slabs := [mkSlab 5%N 1 [mkSector 1%N 9%N]] in
  roots_owned 1%N slabs = [9%N] /\ roots_owned 2%N slabs = [] /\
  exists res,
    deleteSlabs slabs [willing 2%N] [0%nat] = Done res /\
    calls_to 1%N res = [] /\ calls_to 2%N res = [(2%N, [])].
Proof.
  split_and!; [reflexivity | reflexivity |].
  eexists. split_and!; [vm_compute; reflexivity | reflexivity | reflexivity].
Qed.

(** ** migrateSlab *)

(** The three facts about a run of [migrateSlab], in each of its outcomes. *)
Ltac migrate_case :=
  split_and!;
  [ done
  | let Hr := fresh in let He := fresh in
    intros ? ? Hr He;
    first [ discriminate Hr
          | injection Hr as <-; simpl in He;
            first [ discriminate He | injection He as <-; simpl; tauto ] ]
  | let Hr := fresh in let Hne := fresh in
    intros ? Hr Hne;
    first [ discriminate Hr | injection Hr as <-; simpl in *; done ] ].

Section MigrateFacts.
Context {W : Type} `{Hosts W} (codec : Codec) (SectorSize : Z).

Lemma migrate_after_sanity s contracts dT uT draws sd su (w : W) :
  let scan := scan_shards (list_to_set (HostKey <$> contracts)) (Shards s) 0 ∅ [] in
  scan.1 <> [] ->
  ~ (Z.of_nat (length (Shards s)) - Z.of_nat (length scan.1) < MinShards s \/
     (length contracts < length scan.1)%nat) ->
  let d := parallelDownloadSlab codec
             (mkSlabSlice s 0 (wrap32 (MinShards s * SectorSize))) contracts dT sd w in
  let r := migrateSlab codec SectorSize s contracts dT uT draws sd su w in
  mr_downloads (run_val r) = dres_spawned (run_val d) /\
  (forall res e, r = Done res -> mr_res res = Err e -> ~ sanity_failure e) /\
  (forall res, r = Done res -> mr_res res <> Ok () -> mr_slab res = s).
Proof.
  intros scan Hne Hcond d r. subst r. unfold migrateSlab.
  fold scan. destruct scan as [shardIndices usedMap] eqn:Hscan. simpl in Hne, Hcond.
  rewrite decide_False by (destruct shardIndices; [done|simpl; lia]).
  rewrite decide_False by tauto. rewrite decide_False by tauto.
  fold d. destruct d as [dr|dr|dr]; simpl; [|migrate_case..].
  destruct (dres dr) as [[shards slow]|e|msg]; simpl; [|migrate_case..].
  destruct (Reconstruct codec s _) as [e|shards']; simpl; [migrate_case|].
  destruct (replacement_hosts _ _ _ _) as [arr filtered].
  destruct (parallelUploadSlab _ _ _ _ _) as [u|u|u]; simpl;
    destruct (ures u) as [[uploaded slow']|e|msg]; simpl; migrate_case.
Qed.
End MigrateFacts.

(** C5, as amended: when some shard needs migration, [migrateSlab] returns a
    fatal error with no task started and nothing changed exactly when the
    shards that stay are fewer than [MinShards], or the shards to migrate
    are more than the candidate contracts it was given (all of them, those
    of hosts that surviving shards use included); otherwise it goes on to
    the download. *)
Theorem migrate_sanity_checks {W : Type} `{Hosts W} (codec : Codec)
    (SectorSize : Z) (s : Slab) (contracts : list ContractMetadata)
    (dT uT : Z) (draws sd su : list nat) (w : W) :
  let needing :=
    (scan_shards (list_to_set (HostKey <$> contracts)) (Shards s) 0 ∅ []).1 in
  let too_few :=
    Z.of_nat (length (Shards s)) - Z.of_nat (length needing) < MinShards s \/
    (length contracts < length needing)%nat in
  needing <> [] ->
  (too_few <->
   exists e, sanity_failure e /\
     migrateSlab codec SectorSize s contracts dT uT draws sd su w
     = Done (mkMResult (Err e) s contracts w [] [] None))
  /\
  (~ too_few ->
   mr_downloads (run_val (migrateSlab codec SectorSize s contracts dT uT draws sd su w))
   = dres_spawned
       (run_val (parallelDownloadSlab codec
                   (mkSlabSlice s 0 (wrap32 (MinShards s * SectorSize)))
                   contracts dT sd w))).
Proof.
  intros needing too_few Hne.
  pose proof (migrate_after_sanity codec SectorSize s contracts dT uT draws sd su w Hne)
    as Hafter.
  split; [split|].
  - intros Hfew. unfold migrateSlab. subst too_few needing.
    destruct (scan_shards _ _ _ _ _) as [shardIndices usedMap]. simpl in *.
    rewrite decide_False by (destruct shardIndices; [done|simpl; lia]).
    destruct (decide (Z.of_nat (length (Shards s)) - Z.of_nat (length shardIndices)
                      < MinShards s)) as [Hlt|Hge].
    + eexists. split; [|done]. done.
    + rewrite decide_True by (destruct Hfew; [lia|done]).
      eexists. split; [|done]. done.
  - intros (e & He & Hrun).
    destruct (decide too_few) as [|Hnot]; [done|exfalso].
    destruct (Hafter Hnot) as (_ & Hno & _).
    by apply (Hno _ e Hrun).
  - intros Hnot. by destruct (Hafter Hnot) as (Hd & _).
Qed.

(** C9: when [migrateSlab] returns an error (or panics), the slab it was
    given is as before the call: its key, its [MinShards] and every entry of
    [Shards]. The call does return, when the errors are genuine and each
    schedule has two receptions per candidate. *)
Theorem migrate_error_keeps_slab {W : Type} `{Hosts W} (codec : Codec)
    (SectorSize : Z) (s : Slab) (contracts : list ContractMetadata)
    (dT uT : Z) (draws sd su : list nat) (w : W) :
  (forall res,
     migrateSlab codec SectorSize s contracts dT uT draws sd su w = Done res ->
     mr_res res <> Ok () ->
     mr_slab res = s)
  /\
  (genuine_errors W ->
   (2 * length contracts <= length sd)%nat ->
   (2 * length contracts <= length su)%nat ->
   exists res, migrateSlab codec SectorSize s contracts dT uT draws sd su w = Done res).
Proof.
  split; [|apply migrateSlab_returns].
  intros res Hrun Herr.
  pose proof (migrate_after_sanity codec SectorSize s contracts dT uT draws sd su w)
    as Hafter.
  unfold migrateSlab in Hrun. simpl in Hafter.
  destruct (scan_shards _ _ _ _ _) as [shardIndices usedMap] eqn:Hscan. simpl in *.
  destruct (decide (length shardIndices = 0%nat)) as [Hz|Hnz].
  { injection Hrun as <-. done. }
  destruct (decide (Z.of_nat (length (Shards s)) - Z.of_nat (length shardIndices)
                    < MinShards s)) as [Hlt|Hge].
  { injection Hrun as <-. done. }
  destruct (decide (length contracts < length shardIndices)%nat) as [Hlt|Hge'].
  { injection Hrun as <-. done. }
  destruct Hafter as (_ & _ & Hkeep).
  - by destruct shardIndices.
  - lia.
  - apply Hkeep; [|done]. unfold migrateSlab. rewrite Hscan.
    rewrite decide_False by done. rewrite decide_False by done.
    rewrite decide_False by done. done.
Qed.

(** *** Migrations of a slab with a shard on a lost host *)

(** A slab with one shard to migrate and one candidate. *)
Lemma migrate_sanity_checks_witness :
  let needing :=
    (scan_shards (list_to_set (HostKey <$> [hostA])) (Shards stale_slab) 0 ∅ []).1 in
  let too_few :=
    Z.of_nat (length (Shards stale_slab)) - Z.of_nat (length needing)
    < MinShards stale_slab \/
    (length [hostA] < length needing)%nat in
  (too_few <->
   exists e, sanity_failure e /\
     migrateSlab mirror_codec 4 stale_slab [hostA] 0 0 [] [0%nat] [] (sluggish 2%N)
     = Done (mkMResult (Err e) stale_slab [hostA] (sluggish 2%N) [] [] None))
  /\
  (~ too_few ->
   mr_downloads
     (run_val (migrateSlab mirror_codec 4 stale_slab [hostA] 0 0 [] [0%nat] []
                 (sluggish 2%N)))
   = dres_spawned
       (run_val (parallelDownloadSlab mirror_codec
                   (mkSlabSlice stale_slab 0 (wrap32 (MinShards stale_slab * 4)))
                   [hostA] 0 [0%nat] (sluggish 2%N)))).
Proof.
  apply (migrate_sanity_checks mirror_codec 4 stale_slab [hostA] 0 0 []
           [0%nat] [] (sluggish 2%N)).
  vm_compute. discriminate.
Defined.

(** Against C5 as stated, the replacement candidates being the candidates
    that no surviving shard uses: the only candidate is the host of the
    surviving shard, so that one shard needs migration and no host can take
    it; the sanity checks pass, the slab is downloaded, and the call fails
    in the upload. *)
Lemma sanity_check_counts_used_hosts :
  let scan :=
    scan_shards (list_to_set (HostKey <$> [hostA])) (Shards stale_slab) 0 ∅ [] in
  scan.1 = [1%nat] /\ spare_hosts scan.2 [hostA] = [] /\
  exists res,
    migrateSlab mirror_codec 4 stale_slab [hostA] 0 0 [] [0%nat] [] (sluggish 2%N)
    = Done res /\
    mr_downloads res = [0%nat] /\
    mr_res res = Err (UploadFailed (NotEnoughHosts 0 1)).
Proof.
  split_and!; [vm_compute; reflexivity | vm_compute; reflexivity |].
  eexists. split_and!; [vm_compute; reflexivity | reflexivity | reflexivity].
Qed.

(** The migration that fails in the upload leaves the slab as it was. *)
Lemma migrate_error_keeps_slab_witness :
  exists res,
    migrateSlab mirror_codec 4 stale_slab [hostA] 0 0 [] [0%nat] [] (sluggish 2%N)
    = Done res /\
    mr_res res <> Ok () /\
    mr_slab res = stale_slab.
Proof.
  eexists. split; [vm_compute; reflexivity|]. split; [discriminate|].
  destruct (migrate_error_keeps_slab mirror_codec 4 stale_slab [hostA] 0 0 []
              [0%nat] [] (sluggish 2%N)) as [Hkeep _].
  apply Hkeep; [vm_compute; reflexivity | discriminate].
Defined.

(** C4 does not hold of the code. The candidates are [hostB], new, and
    [hostA], which holds the surviving shard; the download asks [hostB]
    first, whose timer fires. [filtered] is [[hostB]], but the sort is
    applied to [contracts], the array that [filtered] is a prefix of, and
    moves [hostA] to the front: the re-upload is given [[hostA]], the shard
    to migrate is stored on the host of the surviving shard, and the call
    reports success. No draw of the shuffle changes this. *)
Lemma migrate_uploads_to_a_used_host (draws : list nat) :
  let scan :=
    scan_shards (list_to_set (HostKey <$> [hostB; hostA])) (Shards stale_slab) 0 ∅ [] in
  HostKey hostA ∈ scan.2 /\
  exists res,
    migrateSlab mirror_codec 4 stale_slab [hostB; hostA] 1 0 draws
      [1%nat; 0%nat; 0%nat] [0%nat] (sluggish 2%N) = Done res /\
    mr_res res = Ok () /\
    mr_candidates res = Some [hostA] /\
    mr_uploads res = [mkUReq hostA 0] /\
    Shards (mr_slab res) = [mkSector 1%N 9%N; mkSector 1%N 7%N].
Proof.
  split; [by apply (bool_decide_unpack _); vm_compute|].
  eexists. split_and!; [vm_compute; reflexivity | reflexivity..].
Qed.

(** ** Upload and download against hosts that keep what they are given *)







Section DownloadBatch.
Context {W : Type} `{Hosts W} (codec : Codec).
Implicit Types (st : @download_state W) (ch : list download_resp).

End DownloadBatch.








(** *** The codec with one data shard keeps the contract *)






(** *** The replacement hosts when the download met no slow host *)

Lemma swap_cells_lookup {A} `{Inhabited A} (arr : list A) i j p :
  (i < length arr)%nat -> (j < length arr)%nat ->
  swap_cells arr i j !! p
  = arr !! (if decide (p = j) then i else if decide (p = i) then j else p).
Proof.
  intros Hi Hj. unfold swap_cells.
  destruct (lookup_lt_is_Some_2 arr i Hi) as [x Hx].
  destruct (lookup_lt_is_Some_2 arr j Hj) as [y Hy].
  rewrite (list_lookup_total_correct _ _ _ Hx), (list_lookup_total_correct _ _ _ Hy).
  case_decide as Hpj.
  - subst p. rewrite list_lookup_insert_eq by (by rewrite length_insert). done.
  - rewrite list_lookup_insert_ne by done. case_decide as Hpi.
    + subst p. by rewrite list_lookup_insert_eq.
    + by rewrite list_lookup_insert_ne.
Qed.

Lemma shuffle_from_prefix {A} `{Inhabited A} (P : A -> Prop) i :
  forall draws (arr : list A) k,
    (i < k <= length arr)%nat ->
    Forall P (take k arr) -> Forall P (take k (shuffle_from i draws arr)).
Proof.
  induction i as [|i IH]; intros draws arr k Hk HP; [done|].
  cbn [shuffle_from]. set (j := (hd 0%nat draws mod (S i + 1))%nat).
  assert (Hj : (j < S i + 1)%nat) by (apply Nat.mod_upper_bound; lia).
  apply IH; [unfold swap_cells; rewrite !length_insert; lia|].
  apply Forall_lookup. intros p x Hp.
  pose proof (lookup_lt_Some _ _ _ Hp) as Hlt. rewrite length_take in Hlt.
  rewrite lookup_take_lt, swap_cells_lookup in Hp by lia.
  eapply (proj1 (Forall_lookup _ _) HP). rewrite lookup_take_lt; [exact Hp|].
  repeat case_decide; lia.
Qed.

Lemma filter_in_place_prefix usedMap todo : forall arr k,
  (k + length todo <= length arr)%nat ->
  Forall (fun c => HostKey c ∉ usedMap) (take k arr) ->
  Forall (fun c => HostKey c ∉ usedMap)
    (take (filter_in_place usedMap todo arr k).2 (filter_in_place usedMap todo arr k).1)
  /\ ((filter_in_place usedMap todo arr k).2
      <= length (filter_in_place usedMap todo arr k).1)%nat.
Proof.
  induction todo as [|c todo IH]; intros arr k Hfit HP; simpl in *.
  - split; [done|lia].
  - case_decide as Hused; [apply IH; [lia|done]|].
    apply IH; [rewrite length_insert; lia|].
    rewrite (take_S_r _ _ c) by (apply list_lookup_insert_eq; lia).
    rewrite take_insert_ge by lia. apply Forall_app. split; [done|].
    by constructor.
Qed.

Lemma insert_stable_flat {A} (x : A) (l : list A) :
  insert_stable (fun _ => 0%nat) x l = l ++ [x].
Proof. induction l as [|y l IH]; [done|]. simpl. by rewrite IH. Qed.

Lemma SliceStable_flat {A} (l : list A) : SliceStable (fun _ => 0%nat) l = l.
Proof.
  unfold SliceStable.
  assert (forall acc, fold_left (fun sorted x => insert_stable (fun _ => 0%nat) x sorted) l acc
                      = acc ++ l) as Hgen.
  { induction l as [|x l IH]; intros acc; simpl; [by rewrite app_nil_r|].
    by rewrite IH, insert_stable_flat, <- app_assoc. }
  apply Hgen.
Qed.

(** When no host was slow the sort leaves the array as it is, and the list
    passed to the upload holds only hosts that no surviving shard uses. *)
Lemma replacement_hosts_without_slow usedMap contracts draws :
  Forall (fun c => HostKey c ∉ usedMap) (replacement_hosts usedMap contracts [] draws).2.
Proof.
  unfold replacement_hosts.
  destruct (filter_in_place_prefix usedMap contracts contracts 0) as [HP Hk];
    [simpl; lia|by rewrite take_0|].
  destruct (filter_in_place _ _ _ _) as [arr k]. simpl in *.
  unfold count_slow. simpl.
  rewrite (SliceStable_flat (Shuffle k draws arr)).
  unfold Shuffle. destruct k as [|k]; [by rewrite take_0|].
  apply shuffle_from_prefix; [lia|done].
Qed.

(** ** The hosts map and the slow hosts *)

Lemma make_hostsMap_snoc (contracts : list ContractMetadata) c :
  make_hostsMap (contracts ++ [c])
  = <[HostKey c := length contracts]> (make_hostsMap contracts).
Proof.
  unfold make_hostsMap. rewrite imap_app, fold_left_app. simpl.
  by rewrite Nat.add_0_r.
Qed.

(** Every host of [contracts] has an index in the hosts map: the index of the
    last contract with the host. *)
Lemma make_hostsMap_lookup (contracts : list ContractMetadata) hk :
  hk ∈ HostKey <$> contracts ->
  exists i c, make_hostsMap contracts !! hk = Some i /\
              contracts !! i = Some c /\ HostKey c = hk.
Proof.
  induction contracts as [|c contracts IH] using rev_ind; intros Hin.
  { by apply elem_of_nil in Hin. }
  rewrite make_hostsMap_snoc.
  destruct (decide (HostKey c = hk)) as [Heq|Hne].
  - exists (length contracts), c. rewrite Heq, lookup_insert_eq.
    split_and!; [done| |done]. by rewrite list_lookup_middle.
  - rewrite fmap_app in Hin. apply elem_of_app in Hin as [Hin|Hin].
    + destruct (IH Hin) as (i & c' & Hi & Hc & Hk).
      exists i, c'. rewrite lookup_insert_ne by done.
      split_and!; [done| |done]. by apply lookup_app_l_Some.
    + simpl in Hin. apply list_elem_of_singleton in Hin. congruence.
Qed.

Lemma collect_slow_total (contracts : list ContractMetadata) timeout (errs : list HostError) :
  Forall (fun he => he_HostKey he ∈ HostKey <$> contracts) errs ->
  exists slow, collect_slow (make_hostsMap contracts) timeout errs = Some slow /\
    Forall (fun i => exists he c, he ∈ errs /\ HostError_Is he timeout = true /\
                       contracts !! i = Some c /\ HostKey c = he_HostKey he) slow.
Proof.
  induction 1 as [|he errs Hhe _ IH]; simpl; [by exists []|].
  destruct IH as (slow & -> & Hslow).
  assert (Hmono : Forall (fun i => exists he0 c, he0 ∈ he :: errs /\
                     HostError_Is he0 timeout = true /\
                     contracts !! i = Some c /\ HostKey c = he_HostKey he0) slow).
  { eapply Forall_impl; [exact Hslow|]. intros i (he0 & c & Hin & ?).
    exists he0, c. split; [by right|done]. }
  destruct (HostError_Is he timeout) eqn:His; [|by exists slow].
  destruct (make_hostsMap_lookup contracts _ Hhe) as (i & c & -> & Hc & Hk).
  simpl. exists (i :: slow). split; [done|]. constructor; [|done].
  exists he, c. split_and!; [by left|done..].
Qed.

(** ** parallelUploadSlab: the hosts tried *)

Section UploadOrder.
Context {W : Type} `{Hosts W}.
Implicit Types (st : @upload_state W) (ch : list upload_resp).

Lemma upload_spawn_order timeout shards contracts i n st ch :
  (u_hostIndex st < length contracts)%nat -> (i < n)%nat ->
  upload_order_inv contracts n st ch ->
  upload_order_inv contracts n (upload_spawn timeout shards contracts i st).1
    (ch ++ (upload_spawn timeout shards contracts i st).2).
Proof.
  intros Hlt Hi (Hhi & Hsp & Hidx & Hlen & Herrs & Hch & Hsec). unfold upload_spawn.
  destruct (lookup_lt_is_Some_2 contracts (u_hostIndex st) Hlt) as [c Hc].
  rewrite (list_lookup_total_correct _ _ _ Hc).
  destruct (upload_worker_shape timeout shards (mkUReq c i) (u_world st))
    as (real & Hreq & Hshape).
  destruct (upload_worker _ _ _ _) as [w' out]. simpl in *.
  unfold upload_order_inv. simpl. split_and!; [lia| | |done|done| |done].
  - rewrite fmap_app, Hsp. simpl. by rewrite (take_S_r _ _ _ Hc).
  - apply Forall_app. split; [done|]. by repeat constructor.
  - apply Forall_app. split; [done|].
    assert (c ∈ contracts) by (by eapply list_elem_of_lookup_2).
    destruct Hshape as [-> | ->]; repeat constructor; simpl; by rewrite ?Hreq.
Qed.

Lemma upload_init_order timeout shards contracts n idxs : forall st ch,
  (u_hostIndex st + length idxs <= length contracts)%nat ->
  Forall (fun i => i < n)%nat idxs ->
  upload_order_inv contracts n st ch ->
  upload_order_inv contracts n (upload_init timeout shards contracts idxs st ch).1
    (upload_init timeout shards contracts idxs st ch).2.
Proof.
  induction idxs as [|i idxs IH]; intros st ch Hfit Hidx HI; [done|].
  cbn [upload_init]. simpl in Hfit.
  apply Forall_cons in Hidx as [Hi Hidx].
  pose proof (upload_spawn_order timeout shards contracts i n st ch ltac:(lia) Hi HI) as HI'.
  assert (Hhi : u_hostIndex (upload_spawn timeout shards contracts i st).1
                = S (u_hostIndex st)).
  { unfold upload_spawn. by destruct (upload_worker _ _ _ _). }
  destruct (upload_spawn _ _ _ _ _) as [st' out]. simpl in *.
  apply IH; [lia|done|done].
Qed.

Lemma upload_body_order timeout shards contracts n st ch r ch' :
  upload_order_inv contracts n st ch -> ch ≡ₚ r :: ch' ->
  upload_order_inv contracts n (upload_body timeout shards contracts r st).1
    (ch' ++ (upload_body timeout shards contracts r st).2).
Proof.
  intros (Hhi & Hsp & Hidx & Hlen & Herrs & Hch & Hsec) Hperm.
  rewrite Hperm in Hch. apply Forall_cons in Hch as [[Hr Hrn] Hch'].
  unfold upload_body. destruct (up_err r) as [e|] eqn:He; simpl.
  - assert (Herrs' : Forall (fun he => he_HostKey he ∈ HostKey <$> contracts)
                       (u_errs st ++ [mkHostError (HostKey (ur_contract (up_req r))) e])).
    { apply Forall_app. split; [done|]. repeat constructor. simpl.
      by apply list_elem_of_fmap_2. }
    case_decide as Hlt.
    + apply upload_spawn_order; [done|done|]. by split_and!.
    + simpl. rewrite app_nil_r. by split_and!.
  - case_decide; simpl; rewrite app_nil_r; unfold upload_order_inv; simpl;
      split_and!; try done.
    + by rewrite length_insert.
    + apply Forall_insert; [done|]. right. simpl. by apply list_elem_of_fmap_2.
Qed.
End UploadOrder.

Section UploadOrderLoop.
Context {W : Type} `{Hosts W}.

(** The invariant holds of the state the call is left in, whatever the
    schedule. *)
Lemma upload_loop_order timeout shards contracts sched (w : W) :
  (length shards <= length contracts)%nat ->
  let p := upload_init timeout shards contracts (seq 0 (length shards))
             (upload_start shards w) [] in
  let q := run_val (recv_loop upload_cond (upload_body timeout shards contracts)
                      sched p.1 p.2) in
  upload_order_inv contracts (length shards) q.1 q.2.
Proof.
  intros Hfit p q. subst q.
  apply (recv_loop_safe upload_cond (upload_body timeout shards contracts)
           (upload_order_inv contracts (length shards))).
  - intros st ch r ch' HI _ Hperm. by apply (upload_body_order _ _ _ _ st ch).
  - subst p. apply upload_init_order.
    + simpl. rewrite length_seq. lia.
    + apply Forall_forall. intros i Hi. apply elem_of_seq in Hi. lia.
    + unfold upload_order_inv, upload_start. simpl.
      split_and!; try done; try lia.
      * by rewrite length_replicate.
      * apply Forall_replicate. by left.
Qed.
End UploadOrderLoop.

(** X1: [parallelUploadSlab] never panics on the lookup of a slow host in
    its hosts map, whatever the hosts do and in whatever order the responses
    arrive; when it succeeds it returns one sector per shard, each on the
    host of a candidate unless its slot was never filled, and every slow
    host it reports is the index of a candidate. *)
Theorem upload_never_panics {W : Type} `{Hosts W}
    (shards : list (list byte)) (contracts : list ContractMetadata)
    (timeout : Z) (sched : list nat) (w : W) :
  let res := run_val (parallelUploadSlab shards contracts timeout sched w) in
  (forall msg, ures res <> Panic msg) /\
  (forall sectors slow, ures res = Ok (sectors, slow) ->
     length sectors = length shards /\
     Forall (fun s => s = mkSector zeroKey zeroHash \/ Host s ∈ HostKey <$> contracts)
       sectors /\
     Forall (fun i => exists c, contracts !! i = Some c) slow).
Proof.
  unfold parallelUploadSlab. case_decide as Hpre; [by split|].
  rewrite run_val_map.
  pose proof (upload_loop_order timeout shards contracts sched w ltac:(lia)) as HI.
  simpl in HI. destruct (run_val _) as [st ch]. simpl in *.
  destruct HI as (_ & _ & _ & Hlen & Herrs & _ & Hsec).
  destruct (collect_slow_total contracts errUploadSectorTimeout _ Herrs)
    as (slow & Hslow & Hall).
  unfold upload_finish. case_decide; [by split|]. rewrite Hslow. simpl.
  split; [done|]. intros sectors slow' [= <- <-]. split_and!; [done|done|].
  eapply Forall_impl; [exact Hall|]. intros i (he & c & _ & _ & Hc & _). eauto.
Qed.

(** X2: [parallelUploadSlab] tries the candidates in the order of
    [contracts] and none of them twice: the contracts of the tasks it has
    started, at any point of any run, are a prefix of [contracts]; and every
    task is for a shard of the batch. *)
Theorem upload_tries_candidates_in_order {W : Type} `{Hosts W}
    (shards : list (list byte)) (contracts : list ContractMetadata)
    (timeout : Z) (sched : list nat) (w : W) :
  let res := run_val (parallelUploadSlab shards contracts timeout sched w) in
  ur_contract <$> ures_spawned res = take (length (ures_spawned res)) contracts /\
  (length (ures_spawned res) <= length contracts)%nat /\
  Forall (fun r => ur_shardIndex r < length shards)%nat (ures_spawned res).
Proof.
  unfold parallelUploadSlab. case_decide as Hpre; [simpl; split_and!; [done|lia|done]|].
  rewrite run_val_map.
  pose proof (upload_loop_order timeout shards contracts sched w ltac:(lia)) as HI.
  simpl in HI. destruct (run_val _) as [st ch]. simpl in *.
  destruct HI as (Hhi & Hsp & Hidx & _).
  assert (Hlen : length (u_spawned st) = u_hostIndex st).
  { rewrite <- (length_fmap ur_contract), Hsp, length_take. lia. }
  assert (Hfin : ures_spawned (upload_finish contracts st) = u_spawned st).
  { unfold upload_finish. case_decide; [done|]. by destruct (collect_slow _ _ _). }
  rewrite Hfin, Hlen. split_and!; [done|lia|done].
Qed.

(** ** parallelUploadSlab: failed tasks are replaced *)




Lemma good_from_step good (contracts : list ContractMetadata) i c :
  contracts !! i = Some c ->
  good_from good contracts i
  = ((if good c then 1 else 0) + good_from good contracts (S i))%nat.
Proof.
  intros Hc. unfold good_from. rewrite (drop_S _ _ _ Hc).
  destruct (good c) eqn:Hg.
  - by rewrite filter_cons_True.
  - rewrite filter_cons_False; [done|]. by rewrite Hg.
Qed.

Lemma good_from_end good (contracts : list ContractMetadata) i :
  (length contracts <= i)%nat -> good_from good contracts i = 0%nat.
Proof. intros Hi. unfold good_from. by rewrite drop_ge. Qed.

Lemma collect_slow_quiet hostsMap timeout (errs : list HostError) :
  Forall (fun he => HostError_Is he timeout = false) errs ->
  collect_slow hostsMap timeout errs = Some [].
Proof. induction 1 as [|he errs Hhe _ IH]; simpl; [done|]. by rewrite Hhe. Qed.

Section UploadRetry.
Context {W : Type} `{Hosts W}.
Implicit Types (st : @upload_state W) (ch : list upload_resp).



End UploadRetry.


(** ** parallelDownloadSlab: the hosts contacted *)

Lemma fill_shard_length hk data (secs : list Sector) : forall shards shards',
  fill_shard hk data secs shards = Some shards' -> length shards' = length shards.
Proof.
  induction secs as [|s secs IH]; intros shards shards' Hf; [done|].
  destruct shards as [|sh shards]; [done|]. simpl in Hf.
  case_decide.
  - by injection Hf as <-.
  - destruct (fill_shard hk data secs shards) as [l|] eqn:E; [|done].
    injection Hf as <-. simpl. f_equal. by apply IH.
Qed.

Lemma fill_shard_filled hk data (secs : list Sector) : forall shards shards',
  fill_shard hk data secs shards = Some shards' -> data <> [] ->
  filled_slots shards' = S (filled_slots shards).
Proof.
  unfold filled_slots.
  induction secs as [|s secs IH]; intros shards shards' Hf Hd; [done|].
  destruct shards as [|sh shards]; [done|]. simpl in Hf.
  case_decide as Hc.
  - injection Hf as <-. destruct Hc as [_ Hc].
    apply nil_length_inv in Hc. subst sh.
    rewrite filter_cons_True by done. by rewrite filter_cons_False by (by intros []).
  - destruct (fill_shard hk data secs shards) as [l|] eqn:E; [|done].
    injection Hf as <-. specialize (IH _ _ E Hd).
    destruct (decide (sh <> [])).
    + rewrite !filter_cons_True by done. simpl. by rewrite IH.
    + by rewrite !filter_cons_False by done.
Qed.

Section DownloadOrder.
Context {W : Type} `{Hosts W} (codec : Codec).
Implicit Types (st : @download_state W) (ch : list download_resp).

Lemma download_worker_index timeout ss contracts hostIndex (w : W) :
  Forall (fun r => dp_hostIndex r = hostIndex)
    (download_worker codec timeout ss contracts hostIndex w).2.
Proof.
  unfold download_worker.
  assert (Hslow : Forall (fun r => dp_hostIndex r = hostIndex)
            (if (0 <? timeout) && timerFires w (contracts !!! hostIndex)
             then [mkDResp hostIndex [] (Some errDownloadSectorTimeout)] else [])).
  { destruct (_ && _); by repeat constructor. }
  destruct (AcquireContract _ _ _); [by constructor|].
  destruct (List.find _ _); [|by constructor].
  destruct (SectorRegion codec ss) as [offset length].
  destruct (DownloadSector _ _ _ _ _) as [w' [data err]]. by constructor.
Qed.

Lemma download_spawn_order timeout ss contracts n st ch :
  (d_hostIndex st < length contracts)%nat ->
  download_order_inv contracts n st ch ->
  download_order_inv contracts n (download_spawn codec timeout ss contracts st).1
    (ch ++ (download_spawn codec timeout ss contracts st).2).
Proof.
  intros Hlt (Hhi & Hsp & Hlen & Herrs & Hch). unfold download_spawn.
  pose proof (download_worker_index timeout ss contracts (d_hostIndex st) (d_world st))
    as Hidx.
  destruct (download_worker _ _ _ _ _ _) as [w' out]. simpl in *.
  unfold download_order_inv. simpl. split_and!; [lia| |done|done|].
  - rewrite Hsp. exact (eq_sym (seq_S (d_hostIndex st) 0)).
  - apply Forall_app. split; [done|].
    eapply Forall_impl; [exact Hidx|]. intros r ->. done.
Qed.

Lemma download_init_order timeout ss contracts n count : forall st ch,
  (d_hostIndex st + count <= length contracts)%nat ->
  download_order_inv contracts n st ch ->
  download_order_inv contracts n (download_init codec timeout ss contracts count st ch).1
    (download_init codec timeout ss contracts count st ch).2.
Proof.
  induction count as [|count IH]; intros st ch Hfit HI; [done|].
  cbn [download_init].
  pose proof (download_spawn_order timeout ss contracts n st ch ltac:(lia) HI) as HI'.
  assert (Hhi : d_hostIndex (download_spawn codec timeout ss contracts st).1
                = S (d_hostIndex st)).
  { unfold download_spawn. by destruct (download_worker _ _ _ _ _ _). }
  destruct (download_spawn _ _ _ _ _) as [st' out]. simpl in *.
  apply IH; [lia|done].
Qed.

Lemma download_body_order timeout ss contracts n st ch r ch' :
  download_order_inv contracts n st ch -> ch ≡ₚ r :: ch' ->
  download_order_inv contracts n (download_body codec timeout ss contracts r st).1
    (ch' ++ (download_body codec timeout ss contracts r st).2).
Proof.
  intros (Hhi & Hsp & Hlen & Herrs & Hch) Hperm.
  rewrite Hperm in Hch. apply Forall_cons in Hch as [Hr Hch'].
  unfold download_body. destruct (dp_err r) as [e|] eqn:He; simpl.
  - assert (Herrs' : Forall (fun he => he_HostKey he ∈ HostKey <$> contracts)
                       (d_errs st ++ [mkHostError (HostKey (contracts !!! dp_hostIndex r)) e])).
    { apply Forall_app. split; [done|]. repeat constructor. simpl.
      apply list_elem_of_fmap_2. by apply list_elem_of_lookup_total_2. }
    case_decide as Hlt.
    + apply download_spawn_order; [done|]. by split_and!.
    + simpl. rewrite app_nil_r. by split_and!.
  - destruct (fill_shard _ _ _ _) as [shards'|] eqn:Hfill; simpl; rewrite app_nil_r;
      unfold download_order_inv; simpl; split_and!; try done.
    by rewrite (fill_shard_length _ _ _ _ _ Hfill).
Qed.

Lemma download_loop_order timeout ss contracts sched (w : W) :
  (Z.to_nat (MinShards (slab ss)) <= length contracts)%nat ->
  let p := download_init codec timeout ss contracts (Z.to_nat (MinShards (slab ss)))
             (download_start ss w) [] in
  let q := run_val (recv_loop download_cond (download_body codec timeout ss contracts)
                      sched p.1 p.2) in
  download_order_inv contracts (length (Shards (slab ss))) q.1 q.2.
Proof.
  intros Hfit p q. subst q.
  apply (recv_loop_safe download_cond (download_body codec timeout ss contracts)
           (download_order_inv contracts (length (Shards (slab ss))))).
  - intros st ch r ch' HI _ Hperm. by apply (download_body_order _ _ _ _ st ch).
  - subst p. apply download_init_order.
    + simpl. lia.
    + unfold download_order_inv, download_start. simpl.
      split_and!; try done; try lia. by rewrite length_replicate.
Qed.

(** The shards gathered, when a success carries at least one byte. *)
Lemma download_worker_nonempty timeout ss contracts hostIndex (w : W) :
  nonempty_downloads W ->
  Forall (fun r => dp_err r = None -> dp_shard r <> [])
    (download_worker codec timeout ss contracts hostIndex w).2.
Proof.
  intros Hne. unfold download_worker.
  assert (Hslow : Forall (fun r => dp_err r = None -> dp_shard r <> [])
            (if (0 <? timeout) && timerFires w (contracts !!! hostIndex)
             then [mkDResp hostIndex [] (Some errDownloadSectorTimeout)] else [])).
  { destruct (_ && _); by repeat constructor. }
  destruct (AcquireContract _ _ _); [by constructor|].
  destruct (List.find _ _) as [shard|]; [|by constructor].
  destruct (SectorRegion codec ss) as [offset length].
  specialize (Hne w (contracts !!! hostIndex) (Root shard) offset length).
  destruct (DownloadSector _ _ _ _ _) as [w' [data err]]. by constructor.
Qed.

Lemma download_spawn_fill timeout ss contracts st ch :
  nonempty_downloads W -> download_fill_inv ss st ch ->
  download_fill_inv ss (download_spawn codec timeout ss contracts st).1
    (ch ++ (download_spawn codec timeout ss contracts st).2).
Proof.
  intros Hne (Hrem & Hpos & Hch). unfold download_spawn.
  pose proof (download_worker_nonempty timeout ss contracts (d_hostIndex st)
                (d_world st) Hne) as Hout.
  destruct (download_worker _ _ _ _ _ _) as [w' out]. simpl in *.
  split_and!; [done|done|]. by apply Forall_app.
Qed.

Lemma download_init_fill timeout ss contracts count : forall st ch,
  nonempty_downloads W -> download_fill_inv ss st ch ->
  download_fill_inv ss (download_init codec timeout ss contracts count st ch).1
    (download_init codec timeout ss contracts count st ch).2.
Proof.
  induction count as [|count IH]; intros st ch Hne HI; [done|].
  cbn [download_init].
  pose proof (download_spawn_fill timeout ss contracts st ch Hne HI) as HI'.
  destruct (download_spawn _ _ _ _ _) as [st' out]. by apply IH.
Qed.

Lemma download_body_fill timeout ss contracts st ch r ch' :
  nonempty_downloads W -> download_fill_inv ss st ch ->
  download_cond st = true -> ch ≡ₚ r :: ch' ->
  download_fill_inv ss (download_body codec timeout ss contracts r st).1
    (ch' ++ (download_body codec timeout ss contracts r st).2).
Proof.
  intros Hne (Hrem & Hpos & Hch) Hcond Hperm.
  rewrite Hperm in Hch. apply Forall_cons in Hch as [Hr Hch'].
  unfold download_cond in Hcond. apply andb_true_iff in Hcond as [Hcond _].
  apply Z.ltb_lt in Hcond.
  unfold download_body. destruct (dp_err r) as [e|] eqn:He; simpl.
  - case_decide as Hlt.
    + apply download_spawn_fill; [done|]. by split_and!.
    + simpl. rewrite app_nil_r. by split_and!.
  - destruct (fill_shard _ _ _ _) as [shards'|] eqn:Hfill; simpl; rewrite app_nil_r.
    + unfold download_fill_inv. simpl.
      rewrite (fill_shard_filled _ _ _ _ _ Hfill (Hr eq_refl)).
      split_and!; [lia|lia|done].
    + by split_and!.
Qed.
End DownloadOrder.

(** X4: [parallelDownloadSlab] returns, whatever the hosts answer and in
    whatever order the responses arrive, once it has received two responses
    per candidate at most, provided the errors of the locker and of the
    hosts are their own. *)
Theorem download_always_returns {W : Type} `{Hosts W} (codec : Codec)
    (ss : SlabSlice) (contracts : list ContractMetadata)
    (timeout : Z) (sched : list nat) (w : W) :
  genuine_errors W -> (2 * length contracts <= length sched)%nat ->
  exists res, parallelDownloadSlab codec ss contracts timeout sched w = Done res.
Proof. apply parallelDownloadSlab_returns. Qed.

(** X5: [parallelDownloadSlab] never panics on the lookup of a slow host in
    its hosts map; when it succeeds it returns one slot per shard of the
    slab, and every slow host it reports is the index of a candidate. *)
Theorem download_never_panics {W : Type} `{Hosts W} (codec : Codec)
    (ss : SlabSlice) (contracts : list ContractMetadata)
    (timeout : Z) (sched : list nat) (w : W) :
  let res := run_val (parallelDownloadSlab codec ss contracts timeout sched w) in
  (forall msg, dres res <> Panic msg) /\
  (forall shards slow, dres res = Ok (shards, slow) ->
     length shards = length (Shards (slab ss)) /\
     Forall (fun i => exists c, contracts !! i = Some c) slow).
Proof.
  unfold parallelDownloadSlab. case_decide as Hpre; [by split|].
  rewrite run_val_map.
  pose proof (download_loop_order codec timeout ss contracts sched w ltac:(lia)) as HI.
  simpl in HI. destruct (run_val _) as [st ch]. simpl in *.
  destruct HI as (_ & _ & Hlen & Herrs & _).
  destruct (collect_slow_total contracts errDownloadSectorTimeout _ Herrs)
    as (slow & Hslow & Hall).
  unfold download_finish. case_decide; [by split|]. rewrite Hslow. simpl.
  split; [done|]. intros shards slow' [= <- <-]. split; [done|].
  eapply Forall_impl; [exact Hall|]. intros i (he & c & _ & _ & Hc & _). eauto.
Qed.

(** X6: [parallelDownloadSlab] contacts the candidates in the order of
    [contracts] and none of them twice: the host indices of the tasks it has
    started, at any point of any run, are [0, 1, ..., k-1] for some [k] that
    is at most the number of candidates. *)
Theorem download_contacts_hosts_in_order {W : Type} `{Hosts W} (codec : Codec)
    (ss : SlabSlice) (contracts : list ContractMetadata)
    (timeout : Z) (sched : list nat) (w : W) :
  let res := run_val (parallelDownloadSlab codec ss contracts timeout sched w) in
  dres_spawned res = seq 0 (length (dres_spawned res)) /\
  (length (dres_spawned res) <= length contracts)%nat.
Proof.
  unfold parallelDownloadSlab. case_decide as Hpre; [simpl; split; [done|lia]|].
  rewrite run_val_map.
  pose proof (download_loop_order codec timeout ss contracts sched w ltac:(lia)) as HI.
  simpl in HI. destruct (run_val _) as [st ch]. simpl in *.
  destruct HI as (Hhi & Hsp & _).
  assert (Hfin : dres_spawned (download_finish contracts st) = d_spawned st).
  { unfold download_finish. case_decide; [done|]. by destruct (collect_slow _ _ _). }
  rewrite Hfin, Hsp, length_seq. done.
Qed.

(** X7: when a host that reports success returns at least one byte, a
    successful [parallelDownloadSlab] returns exactly [MinShards] shards:
    that many slots hold data and the others are empty. *)
Theorem download_gathers_min_shards {W : Type} `{Hosts W} (codec : Codec)
    (ss : SlabSlice) (contracts : list ContractMetadata)
    (timeout : Z) (sched : list nat) (w : W) (shards : list (list byte))
    (slow : list nat) :
  nonempty_downloads W -> 0 <= MinShards (slab ss) ->
  dres (run_val (parallelDownloadSlab codec ss contracts timeout sched w))
  = Ok (shards, slow) ->
  Z.of_nat (filled_slots shards) = MinShards (slab ss).
Proof.
  intros Hne Hmin. unfold parallelDownloadSlab. case_decide as Hpre; [done|].
  rewrite run_val_map.
  assert (HI : download_fill_inv ss
    (run_val (recv_loop download_cond (download_body codec timeout ss contracts) sched
       (download_init codec timeout ss contracts (Z.to_nat (MinShards (slab ss)))
          (download_start ss w) []).1
       (download_init codec timeout ss contracts (Z.to_nat (MinShards (slab ss)))
          (download_start ss w) []).2)).1
    (run_val (recv_loop download_cond (download_body codec timeout ss contracts) sched
       (download_init codec timeout ss contracts (Z.to_nat (MinShards (slab ss)))
          (download_start ss w) []).1
       (download_init codec timeout ss contracts (Z.to_nat (MinShards (slab ss)))
          (download_start ss w) []).2)).2).
  { apply (recv_loop_safe download_cond (download_body codec timeout ss contracts)
             (download_fill_inv ss)).
    - intros st ch r ch' HI Hc Hperm. by apply (download_body_fill _ _ _ _ st ch).
    - apply download_init_fill; [done|].
      unfold download_fill_inv, download_start, filled_slots. simpl.
      split_and!; [|done|done].
      assert (filter (fun sh : list byte => sh <> [])
                (replicate (length (Shards (slab ss))) []) = []) as ->; [|simpl; lia].
      induction (length (Shards (slab ss))) as [|k IHk]; [done|].
      cbn [replicate]. by rewrite filter_cons_False by (by intros []). }
  destruct (run_val _) as [st ch]. simpl in *.
  destruct HI as (Hrem & Hpos & _).
  unfold download_finish. case_decide as Hr; [done|].
  destruct (collect_slow _ _ _); [|done]. simpl. intros [= <- <-]. lia.
Qed.

(** ** slabsForDownload: the span returned *)

Lemma total_Length_app l1 l2 :
  total_Length (l1 ++ l2) = total_Length l1 + total_Length l2.
Proof. induction l1 as [|s l1 IH]; simpl; [done|]. rewrite IH. lia. Qed.

Lemma total_Length_range l :
  Forall slice_in_range l -> 0 <= total_Length l.
Proof. induction 1 as [|s l (_ & Hs & _) _ IH]; simpl; [done|]. lia. Qed.

Lemma slice_span_length ss : length (slice_span ss) = Z.to_nat (Length ss).
Proof. unfold slice_span. by rewrite length_fmap, length_seq. Qed.

Lemma slices_span_length l :
  Forall slice_in_range l -> length (slices_span l) = Z.to_nat (total_Length l).
Proof.
  unfold slices_span.
  induction 1 as [|s l (_ & Hs & _) Hl IH]; [done|].
  rewrite bind_cons, length_app, IH, slice_span_length. simpl.
  pose proof (total_Length_range l Hl). lia.
Qed.

Lemma slice_span_drop ss k :
  0 <= k <= Length ss ->
  drop (Z.to_nat k) (slice_span ss) = slice_span (advance ss k).
Proof.
  intros Hk. unfold slice_span, advance. simpl.
  rewrite <- fmap_drop, drop_seq.
  replace (0 + Z.to_nat k)%nat with (Z.to_nat k + 0)%nat by lia.
  replace (Z.to_nat (Length ss - k)) with (Z.to_nat (Length ss) - Z.to_nat k)%nat by lia.
  rewrite <- (fmap_add_seq (Z.to_nat k) 0), <- list_fmap_compose.
  apply list_fmap_ext. intros _ x _. simpl. f_equal. lia.
Qed.

Lemma slice_span_take ss k :
  0 <= k <= Length ss ->
  take (Z.to_nat k) (slice_span ss) = slice_span (set_Length ss k).
Proof.
  intros Hk. unfold slice_span, set_Length. simpl.
  rewrite <- fmap_take, take_seq. by rewrite Nat.min_l by lia.
Qed.

(** Where a scan that has enough to walk through stops: at the first slice
    that holds the rest of the span. *)
Lemma span_scan_spec l : forall i left,
  Forall slice_in_range l -> l <> [] ->
  0 <= left <= total_Length l -> total_Length l < 2 ^ 63 ->
  exists j s,
    span_scan l i left = (Some (i + j)%nat, left - total_Length (take j l)) /\
    l !! j = Some s /\ 0 <= left - total_Length (take j l) <= Length s.
Proof.
  induction l as [|s l IH]; intros i left Hf Hne Hleft Hsum; [done|].
  apply Forall_cons in Hf as [(Ho & Hs & Hos) Hf].
  pose proof (total_Length_range l Hf) as Hnn.
  assert (Hstep : span_scan (s :: l) i left
            = if decide (left <= Length s) then (Some i, left)
              else span_scan l (S i) (wrap64 (left - Length s))) by done.
  rewrite Hstep. simpl in Hleft, Hsum.
  case_decide as Hd.
  - exists 0%nat, s. simpl. rewrite Nat.add_0_r, Z.sub_0_r. split_and!; [done|done|lia..].
  - rewrite wrap64_id by lia.
    destruct (IH (S i) (left - Length s) Hf) as (j & sj & Hscan & Hj & Hr).
    + intros ->. simpl in *. lia.
    + lia.
    + lia.
    + exists (S j), sj. rewrite Hscan. simpl.
      split_and!; [|done|lia..]. f_equal; [f_equal; lia|lia].
Qed.

Lemma slices_span_drop l i si offset :
  Forall slice_in_range l -> l !! i = Some si ->
  0 <= offset - total_Length (take i l) <= Length si ->
  drop (Z.to_nat offset) (slices_span l)
  = slices_span (advance si (offset - total_Length (take i l)) :: drop (S i) l).
Proof.
  intros Hf Hi Hfo. unfold slices_span.
  rewrite <- (take_drop_middle l i si Hi) at 1.
  rewrite bind_app, !bind_cons.
  assert (Hft : Forall slice_in_range (take i l)) by (by apply Forall_take).
  pose proof (total_Length_range _ Hft) as Hnn.
  replace (Z.to_nat offset)
    with (Z.to_nat (total_Length (take i l))
          + Z.to_nat (offset - total_Length (take i l)))%nat by lia.
  rewrite drop_app_add' by (symmetry; by apply slices_span_length).
  rewrite drop_app_le by (rewrite slice_span_length; lia).
  by rewrite slice_span_drop.
Qed.

Lemma slices_span_take l j sj length :
  Forall slice_in_range l -> l !! j = Some sj ->
  0 <= length - total_Length (take j l) <= Length sj ->
  take (Z.to_nat length) (slices_span l)
  = slices_span (take j l ++ [set_Length sj (length - total_Length (take j l))]).
Proof.
  intros Hf Hj Hll. unfold slices_span.
  rewrite <- (take_drop_middle l j sj Hj) at 1.
  rewrite !bind_app, !bind_cons. simpl. rewrite app_nil_r.
  assert (Hft : Forall slice_in_range (take j l)) by (by apply Forall_take).
  pose proof (total_Length_range _ Hft) as Hnn.
  replace (Z.to_nat length)
    with (Z.to_nat (total_Length (take j l))
          + Z.to_nat (length - total_Length (take j l)))%nat by lia.
  rewrite take_app_add' by (symmetry; by apply slices_span_length).
  rewrite take_app_le by (rewrite slice_span_length; lia).
  by rewrite slice_span_take.
Qed.

(** The sequence [slabsForDownload] returns, from where its two scans stop. *)
Lemma slabsForDownload_reads (h : list (list SlabSlice)) slabs l offset length
    i si fo j sj ll :
  GoSlice.read h slabs = Some l ->
  span_scan l 0 offset = (Some i, fo) -> l !! i = Some si ->
  slice_in_range si -> 0 <= fo <= Length si ->
  span_scan (advance si fo :: drop (S i) l) 0 length = (Some j, ll) ->
  (advance si fo :: drop (S i) l) !! j = Some sj -> 0 <= ll < 2 ^ 32 ->
  exists h' s',
    slabsForDownload h slabs offset length = Some (h', s') /\
    GoSlice.read h' s'
    = Some (take j (advance si fo :: drop (S i) l) ++ [set_Length sj ll]).
Proof.
  intros Hread Hscan1 Hi (Ho & Hl & Hol) Hfo Hscan2 Hj Hll.
  assert (Hil : (i < List.length l)%nat) by (by eapply lookup_lt_Some).
  unfold slabsForDownload, GoSlice.copy_of. rewrite Hread. simpl.
  rewrite read_fresh, drop_0, firstn_all. simpl.
  rewrite Hscan1. unfold GoSlice.from. simpl.
  rewrite (index_fresh h l _ _ 0 si) by (rewrite ?Nat.add_0_r; done || lia). simpl.
  rewrite store_fresh by lia. simpl. rewrite Nat.add_0_r.
  rewrite (wrap32_id fo), (wrap32_id (Offset si + fo)) by lia.
  rewrite (index_fresh h _ _ _ 0 (set_Offset si (Offset si + fo)))
    by (rewrite ?Nat.add_0_r; first [lia | by apply list_lookup_insert_eq]). simpl.
  rewrite store_fresh by lia. simpl. rewrite Nat.add_0_r.
  rewrite (wrap32_id (Length si - fo)) by lia.
  rewrite list_insert_insert_eq.
  change (set_Length (set_Offset si (Offset si + fo)) (Length si - fo))
    with (advance si fo).
  rewrite read_fresh.
  assert (Hl1 : take (List.length l - i) (drop i (<[i := advance si fo]> l))
                = advance si fo :: drop (S i) l).
  { rewrite firstn_all2 by (rewrite length_drop, length_insert; lia).
    rewrite (drop_S _ (advance si fo)) by (by apply list_lookup_insert_eq).
    by rewrite drop_insert_lt by lia. }
  rewrite Hl1. cbn [mbind option_bind]. rewrite Hscan2. unfold GoSlice.upto.
  cbn [mbind option_bind GoSlice.len GoSlice.off GoSlice.ptr].
  assert (Hjl : (j < S (List.length (drop (S i) l)))%nat).
  { apply lookup_lt_Some in Hj. simpl in Hj. lia. }
  rewrite length_drop in Hjl.
  replace (j + 1 - 1)%nat with j by lia.
  assert (Hlook : (<[i := advance si fo]> l) !! (i + j)%nat = Some sj).
  { rewrite <- lookup_drop. rewrite (drop_S _ (advance si fo))
      by (by apply list_lookup_insert_eq).
    by rewrite drop_insert_lt by lia. }
  rewrite (index_fresh h _ _ _ j sj) by (done || lia). simpl.
  rewrite store_fresh by lia. simpl.
  rewrite (wrap32_id ll) by lia.
  eexists _, _. split; [done|]. rewrite read_fresh. f_equal.
  rewrite drop_insert_ge by lia.
  replace (i + j - i)%nat with j by lia.
  rewrite (drop_S _ (advance si fo)) by (by apply list_lookup_insert_eq).
  rewrite drop_insert_lt by lia.
  replace (j + 1)%nat with (S j) by lia.
  rewrite take_insert_lt by lia.
  rewrite (take_S_r _ _ sj Hj).
  rewrite insert_app_r_alt by (rewrite length_take; simpl; rewrite length_drop; lia).
  rewrite length_take. simpl. rewrite length_drop.
  replace (j - j `min` S (List.length l - S i))%nat with 0%nat by lia.
  done.
Qed.

(** X8: for a non-empty sequence of slices and a span [offset, offset+length)
    that lies within the bytes the slices cover, [slabsForDownload] returns
    a sequence that covers exactly the bytes of the span, in order: the
    same slabs at the same positions, nothing before the span and nothing
    after it; its lengths add up to [length]. *)
Theorem slabsForDownload_exact_span (h : list (list SlabSlice))
    (slabs : GoSlice.slice) (l : list SlabSlice) (offset length : Z) :
  GoSlice.read h slabs = Some l ->
  l <> [] ->
  Forall slice_in_range l ->
  total_Length l < 2 ^ 63 ->
  0 <= offset -> 0 <= length -> offset + length <= total_Length l ->
  exists h' s' l',
    slabsForDownload h slabs offset length = Some (h', s') /\
    GoSlice.read h' s' = Some l' /\
    slices_span l' = take (Z.to_nat length) (drop (Z.to_nat offset) (slices_span l)) /\
    total_Length l' = length.
Proof.
  intros Hread Hne Hf Hsum Hoff Hlen Hfit.
  destruct (span_scan_spec l 0 offset Hf Hne ltac:(lia) Hsum)
    as (i & si & Hscan1 & Hi & Hfo).
  simpl in Hscan1.
  assert (Hsi : slice_in_range si).
  { eapply (proj1 (Forall_forall _ _) Hf). by eapply list_elem_of_lookup_2. }
  set (fo := offset - total_Length (take i l)) in *.
  set (l1 := advance si fo :: drop (S i) l).
  assert (Hf1 : Forall slice_in_range l1).
  { subst l1. constructor; [|by apply Forall_drop].
    destruct Hsi as (? & ? & ?). unfold slice_in_range, advance. simpl. lia. }
  assert (Htot1 : total_Length l1 = total_Length l - offset).
  { rewrite <- (take_drop_middle l i si Hi) at 1.
    rewrite total_Length_app. subst l1 fo. simpl. lia. }
  destruct (span_scan_spec l1 0 length Hf1 ltac:(done) ltac:(lia) ltac:(lia))
    as (j & sj & Hscan2 & Hj & Hll).
  simpl in Hscan2.
  assert (Hsj : slice_in_range sj).
  { eapply (proj1 (Forall_forall _ _) Hf1). by eapply list_elem_of_lookup_2. }
  set (ll := length - total_Length (take j l1)) in *.
  destruct (slabsForDownload_reads h slabs l offset length i si fo j sj ll)
    as (h' & s' & Hrun & Hres); try done.
  { destruct Hsj as (? & ? & ?). lia. }
  exists h', s', (take j l1 ++ [set_Length sj ll]).
  split_and!; [done|done| |].
  - rewrite (slices_span_drop l i si offset Hf Hi Hfo).
    fold fo. fold l1. symmetry. by apply slices_span_take.
  - rewrite total_Length_app. simpl. subst ll. lia.
Qed.

(** X9: [slabsForDownload] on an empty sequence of slices panics with an
    index out of range, whatever span is asked for. *)
Theorem slabsForDownload_of_nothing_panics (h : list (list SlabSlice))
    (slabs : GoSlice.slice) (offset length : Z) :
  GoSlice.len slabs = 0%nat ->
  slabsForDownload h slabs offset length = None.
Proof.
  intros Hlen. unfold slabsForDownload, GoSlice.copy_of, GoSlice.read.
  rewrite Hlen. destruct (h !! GoSlice.ptr slabs) as [a|]; [|done]. simpl.
  rewrite list_lookup_middle by done. simpl. done.
Qed.

(** ** deleteSlabs: every root is deleted *)

(** Splitting a list of sectors by host, for hosts that differ from one
    another and among which every owner is. *)
Lemma sectors_by_host (keys : list PublicKey) : forall sectors : list Sector,
  NoDup keys -> Forall (fun sector => Host sector ∈ keys) sectors ->
  keys ≫= (fun k => filter (fun sector => Host sector = k) sectors) ≡ₚ sectors.
Proof.
  induction keys as [|k keys IH]; intros sectors Hnd Hin.
  - destruct sectors as [|s sectors]; [done|].
    apply Forall_cons in Hin as [Hs _]. by apply elem_of_nil in Hs.
  - apply NoDup_cons in Hnd as [Hk Hnd]. rewrite bind_cons.
    assert (Hrest : keys ≫= (fun k' => filter (fun sector => Host sector = k') sectors)
                    = keys ≫= (fun k' => filter (fun sector => Host sector = k')
                                           (filter (fun sector => ~ Host sector = k) sectors))).
    { clear IH Hnd Hin. induction keys as [|k' keys IHk]; [done|].
      rewrite !bind_cons. apply not_elem_of_cons in Hk as [Hne Hk].
      rewrite (IHk Hk). f_equal.
      rewrite list_filter_filter. apply list_filter_iff.
      intros x. split; [intros Hx; split; [done|congruence]|by intros [? _]]. }
    rewrite Hrest. rewrite IH.
    + apply filter_app_complement.
    + done.
    + apply Forall_forall. intros x Hx. apply list_elem_of_filter in Hx as [Hne Hx].
      pose proof (proj1 (Forall_forall _ _) Hin x Hx) as Hxk.
      apply elem_of_cons in Hxk as [Hxk|Hxk]; [done|done].
Qed.

(** X10: when the sessions are with hosts that differ from one another and
    every sector of the slabs is on the host of one of them, the roots
    passed to the [DeleteSectors] calls of [deleteSlabs] are, taken
    together, the roots of all the sectors of all the slabs: every root is
    sent for deletion, and none more often than it occurs. *)
Theorem deleteSlabs_deletes_every_root_once (slabs : list Slab)
    (hosts : list sectorStore) (sched : list nat) :
  NoDup (st_PublicKey <$> hosts) ->
  Forall (fun sector => Host sector ∈ st_PublicKey <$> hosts) (slabs ≫= Shards) ->
  del_calls (run_val (deleteSlabs slabs hosts sched)) ≫= snd
  ≡ₚ Root <$> (slabs ≫= Shards).
Proof.
  intros Hnd Hin. unfold deleteSlabs. rewrite run_val_map. simpl.
  trans (Root <$> ((st_PublicKey <$> hosts)
                    ≫= (fun k => filter (fun sector => Host sector = k) (slabs ≫= Shards)))).
  2:{ by rewrite sectors_by_host. }
  clear Hnd Hin. induction hosts as [|h hosts IH]; [done|].
  rewrite !fmap_cons, !bind_cons, fmap_app. simpl.
  rewrite rootsBysectorStore_owned. unfold roots_owned at 1.
  by rewrite IH.
Qed.

(** ** migrateSlab: the shards selected and the shards kept *)

(** The scan of the shards: the indices it adds are those of the shards on
    a host outside [hostsMap], or in [usedMap], or on which an earlier shard
    is; the hosts it adds to [usedMap] are the hosts of [hostsMap] that
    hold a shard. *)
Lemma scan_shards_spec (hostsMap : gset N) (shards : list Sector) :
  forall i usedMap acc,
  exists sel,
    (scan_shards hostsMap shards i usedMap acc).1 = acc ++ sel /\
    (forall k, k ∈ sel <->
       exists j s, k = (i + j)%nat /\ shards !! j = Some s /\
         (Host s ∉ hostsMap \/ Host s ∈ usedMap \/ Host s ∈ Host <$> take j shards)) /\
    (forall hk, hk ∈ (scan_shards hostsMap shards i usedMap acc).2 <->
       hk ∈ usedMap \/ (hk ∈ hostsMap /\ hk ∈ Host <$> shards)).
Proof.
  induction shards as [|shard shards IH]; intros i usedMap acc.
  { exists []. simpl. rewrite app_nil_r. split_and!; [done| |].
    - intros k. split; [by intros ?%elem_of_nil|]. by intros (j & s & _ & ? & _).
    - intros hk. split; [by left|]. intros [?|[_ ?%elem_of_nil]]; done. }
  assert (Hsel : forall (P : nat -> Sector -> Prop) k,
             (exists j s, k = (i + j)%nat /\ (shard :: shards) !! j = Some s /\ P j s)
             <-> (k = i /\ P 0%nat shard) \/
                 (exists j s, k = (S i + j)%nat /\ shards !! j = Some s /\ P (S j) s)).
  { intros P k. split.
    - intros (j & s & -> & Hj & HP). destruct j as [|j]; simpl in Hj.
      + injection Hj as <-. left. split; [lia|done].
      + right. exists j, s. split_and!; [lia|done|done].
    - intros [[-> HP]|(j & s & -> & Hj & HP)].
      + exists 0%nat, shard. split_and!; [lia|done|done].
      + exists (S j), s. split_and!; [lia|done|done]. }
  simpl. case_decide as Hout; [|case_decide as Hused].
  - destruct (IH (S i) usedMap (acc ++ [i])) as (sel & Hacc & Hk & Hu).
    exists (i :: sel). split_and!.
    + by rewrite Hacc, <- app_assoc.
    + intros k. rewrite elem_of_cons, Hk, Hsel. simpl.
      split; intros [Hl|(j & s & ? & ? & Hc)].
      * left. split; [done|by left].
      * right. exists j, s. split_and!; [done..|].
        destruct Hc as [?|[?|?]]; [by left|by right; left|].
        right. right. by right.
      * left. by destruct Hl.
      * right. exists j, s. split_and!; [done..|].
        destruct Hc as [?|[?|Hc]]; [by left|by right; left|].
        apply elem_of_cons in Hc as [Hc|Hc]; [left; by rewrite Hc|by right; right].
    + intros hk. rewrite Hu, ?fmap_cons, elem_of_cons.
      split; [intros [?|[? ?]]; [by left|right; split; [done|by right]]|].
      intros [?|[Hh [->|?]]]; [by left|done|by right].
  - destruct (IH (S i) usedMap (acc ++ [i])) as (sel & Hacc & Hk & Hu).
    exists (i :: sel). split_and!.
    + by rewrite Hacc, <- app_assoc.
    + intros k. rewrite elem_of_cons, Hk, Hsel. simpl.
      split; intros [Hl|(j & s & ? & ? & Hc)].
      * left. split; [done|by right; left].
      * right. exists j, s. split_and!; [done..|].
        destruct Hc as [?|[?|?]]; [by left|by right; left|].
        right. right. by right.
      * left. by destruct Hl.
      * right. exists j, s. split_and!; [done..|].
        destruct Hc as [?|[?|Hc]]; [by left|by right; left|].
        apply elem_of_cons in Hc as [Hc|Hc]; [right; left; by rewrite Hc|by right; right].
    + intros hk. rewrite Hu, ?fmap_cons, elem_of_cons.
      split; [intros [?|[? ?]]; [by left|right; split; [done|by right]]|].
      intros [?|[Hh [->|?]]]; [by left|by left|by right].
  - destruct (IH (S i) ({[Host shard]} ∪ usedMap) acc) as (sel & Hacc & Hk & Hu).
    exists sel. split_and!.
    + done.
    + intros k. rewrite Hk, Hsel. simpl.
      split.
      * intros (j & s & ? & ? & Hc). right. exists j, s. split_and!; [done..|].
        destruct Hc as [?|[Hc|?]]; [by left| |by right; right; right].
        apply elem_of_union in Hc as [Hc|Hc]; [|by right; left].
        apply elem_of_singleton in Hc. right. right. rewrite Hc. by left.
      * intros [[_ Hc]|(j & s & ? & ? & Hc)].
        -- destruct Hc as [?|[?|Hc]]; [done|done|by apply elem_of_nil in Hc].
        -- exists j, s. split_and!; [done..|].
           destruct Hc as [?|[?|Hc]];
             [by left|right; left; apply elem_of_union; by right|].
           apply elem_of_cons in Hc as [Hc|Hc]; [|by right; right].
           right. left. apply elem_of_union. left. by apply elem_of_singleton.
    + intros hk. rewrite Hu, ?fmap_cons, elem_of_cons, elem_of_union, elem_of_singleton.
      split.
      * intros [[->|?]|[? ?]]; [right; split; [done|by left]|by left|].
        right. split; [done|by right].
      * intros [?|[Hh [->|?]]]; [by left; right|by left; left|by right].
Qed.

Lemma scan_shards_selected (contracts : list ContractMetadata)
    (shards : list Sector) (k : nat) :
  k ∈ (scan_shards (list_to_set (HostKey <$> contracts)) shards 0 ∅ []).1 <->
  exists s, shards !! k = Some s /\
    (Host s ∉ HostKey <$> contracts \/ Host s ∈ Host <$> take k shards).
Proof.
  destruct (scan_shards_spec (list_to_set (HostKey <$> contracts)) shards 0 ∅ [])
    as (sel & -> & Hk & _).
  simpl. rewrite Hk. split.
  - intros (j & s & -> & Hs & Hc). exists s. split; [done|].
    destruct Hc as [Hc|[Hc|Hc]]; [left; set_solver|set_solver|by right].
  - intros (s & Hs & Hc). exists k, s. split_and!; [done|done|].
    destruct Hc as [Hc|Hc]; [left; set_solver|by right; right].
Qed.

(** X11: the shards [migrateSlab] selects for migration are exactly those on
    a host that none of the candidate contracts is with, and those on a
    host on which an earlier shard of the slab is. *)
Theorem migrate_selects_lost_and_doubled_shards (contracts : list ContractMetadata)
    (shards : list Sector) (k : nat) :
  k ∈ (scan_shards (list_to_set (HostKey <$> contracts)) shards 0 ∅ []).1 <->
  exists s, shards !! k = Some s /\
    (Host s ∉ HostKey <$> contracts \/ Host s ∈ Host <$> take k shards).
Proof. apply scan_shards_selected. Qed.

Lemma overwrite_shards_length (shardIndices : list nat) : forall uploaded shards,
  length (overwrite_shards shardIndices uploaded shards) = length shards.
Proof.
  induction shardIndices as [|si rest IH]; intros uploaded shards; [done|].
  destruct uploaded as [|u uploaded]; [done|]. simpl.
  by rewrite IH, length_insert.
Qed.

Lemma overwrite_shards_other (shardIndices : list nat) : forall uploaded shards i,
  i ∉ shardIndices ->
  overwrite_shards shardIndices uploaded shards !! i = shards !! i.
Proof.
  induction shardIndices as [|si rest IH]; intros uploaded shards i Hi; [done|].
  destruct uploaded as [|u uploaded]; [done|]. simpl.
  apply not_elem_of_cons in Hi as [Hne Hi].
  rewrite IH by done. by rewrite list_lookup_insert_ne.
Qed.

(** *** The array of the caller *)

Lemma filter_in_place_Forall (P : ContractMetadata -> Prop) usedMap todo : forall arr k,
  Forall P todo -> Forall P arr -> Forall P (filter_in_place usedMap todo arr k).1.
Proof.
  induction todo as [|c todo IH]; intros arr k Htodo Harr; [done|].
  apply Forall_cons in Htodo as [Hc Htodo]. simpl.
  case_decide; [by apply IH|]. apply IH; [done|]. by apply Forall_insert.
Qed.

Lemma shuffle_from_Forall {A} `{Inhabited A} (P : A -> Prop) i :
  forall draws (arr : list A),
    (i < length arr)%nat -> Forall P arr -> Forall P (shuffle_from i draws arr).
Proof.
  induction i as [|i IH]; intros draws arr Hi HP; [done|].
  cbn [shuffle_from]. set (j := (hd 0%nat draws mod (S i + 1))%nat).
  assert (Hj : (j < S i + 1)%nat) by (apply Nat.mod_upper_bound; lia).
  apply IH; [unfold swap_cells; rewrite !length_insert; lia|].
  unfold swap_cells. apply Forall_insert; [apply Forall_insert; [done|]|].
  - apply Forall_lookup_total_1; [done|lia].
  - apply Forall_lookup_total_1; [done|lia].
Qed.

Lemma insert_stable_perm {A} (key : A -> nat) x (l : list A) :
  insert_stable key x l ≡ₚ x :: l.
Proof.
  induction l as [|y l IH]; [done|]. simpl. case_decide; [done|].
  rewrite IH. apply Permutation_swap.
Qed.

Lemma SliceStable_perm {A} (key : A -> nat) (l : list A) : SliceStable key l ≡ₚ l.
Proof.
  unfold SliceStable.
  assert (forall acc, fold_left (fun sorted x => insert_stable key x sorted) l acc
                      ≡ₚ acc ++ l) as Hgen.
  { induction l as [|x l IH]; intros acc; simpl; [by rewrite app_nil_r|].
    rewrite IH, insert_stable_perm. simpl. apply Permutation_middle. }
  apply Hgen.
Qed.

Lemma replacement_hosts_array usedMap contracts slowHosts draws :
  length (replacement_hosts usedMap contracts slowHosts draws).1 = length contracts /\
  Forall (fun c => c ∈ contracts) (replacement_hosts usedMap contracts slowHosts draws).1.
Proof.
  unfold replacement_hosts.
  pose proof (filter_in_place_length usedMap contracts contracts 0) as Hlen.
  pose proof (filter_in_place_Forall (fun c => c ∈ contracts) usedMap contracts
                contracts 0) as Hall.
  destruct (filter_in_place_prefix usedMap contracts contracts 0) as [_ Hk];
    [simpl; lia|by rewrite take_0|].
  destruct (filter_in_place _ _ _ _) as [arr k]. simpl in *.
  rewrite SliceStable_length. unfold Shuffle. rewrite shuffle_from_length.
  split; [done|]. rewrite SliceStable_perm.
  assert (Harr : Forall (fun c => c ∈ contracts) arr).
  { apply Hall; by apply Forall_forall. }
  destruct k as [|k]; [done|]. simpl. rewrite Nat.sub_0_r.
  apply shuffle_from_Forall; [lia|done].
Qed.

Section MigrateOutcomes.
Context {W : Type} `{Hosts W} (codec : Codec) (SectorSize : Z).

(** The slab and the array a run of [migrateSlab] leaves, whatever its
    outcome. *)
Lemma migrate_outcome s contracts dT uT draws sd su (w : W) :
  let scan := scan_shards (list_to_set (HostKey <$> contracts)) (Shards s) 0 ∅ [] in
  let res := run_val (migrateSlab codec SectorSize s contracts dT uT draws sd su w) in
  (mr_contracts res = contracts \/
   exists slow, mr_contracts res = (replacement_hosts scan.2 contracts slow draws).1) /\
  (mr_slab res = s \/
   exists uploaded,
     mr_slab res = mkSlab (Key s) (MinShards s)
                     (overwrite_shards scan.1 uploaded (Shards s))).
Proof.
  intros scan res. subst res. unfold migrateSlab. fold scan.
  destruct scan as [shardIndices usedMap]. simpl.
  case_decide; [by split; left|]. case_decide; [by split; left|].
  case_decide; [by split; left|].
  destruct (parallelDownloadSlab _ _ _ _ _ _) as [d|d|d]; simpl;
    [|by split; left..].
  destruct (dres d) as [[shards slow]|e|msg]; simpl; [|by split; left..].
  destruct (Reconstruct codec s _) as [e|shards']; simpl; [by split; left|].
  destruct (replacement_hosts usedMap contracts slow draws) as [arr filtered] eqn:Hrep.
  rewrite run_val_map.
  destruct (ures (run_val _)) as [[uploaded slow']|e|msg]; simpl.
  - split; [right; exists slow; by rewrite Hrep|right; by exists uploaded].
  - split; [right; exists slow; by rewrite Hrep|by left].
  - split; [right; exists slow; by rewrite Hrep|by left].
Qed.
End MigrateOutcomes.

(** X12: a slab whose shards are on hosts that differ from one another and
    that are all hosts of candidate contracts needs no migration:
    [migrateSlab] returns nil at once, with no download and no upload
    started, and the slab, the contracts and the hosts as they were. *)
Theorem migrate_healthy_slab_is_untouched {W : Type} `{Hosts W} (codec : Codec)
    (SectorSize : Z) (s : Slab) (contracts : list ContractMetadata)
    (dT uT : Z) (draws sd su : list nat) (w : W) :
  NoDup (Host <$> Shards s) ->
  Forall (fun sector => Host sector ∈ HostKey <$> contracts) (Shards s) ->
  migrateSlab codec SectorSize s contracts dT uT draws sd su w
  = Done (mkMResult (Ok ()) s contracts w [] [] None).
Proof.
  intros Hnd Hin. unfold migrateSlab.
  assert (Hnone : (scan_shards (list_to_set (HostKey <$> contracts)) (Shards s) 0 ∅ []).1
                  = []).
  { apply elem_of_nil_inv. intros k Hk.
    apply scan_shards_selected in Hk as (sec & Hsec & [Hout|Hdup]).
    - apply Hout. eapply (proj1 (Forall_forall _ _) Hin).
      by eapply list_elem_of_lookup_2.
    - rewrite <- (take_drop_middle _ _ _ Hsec) in Hnd.
      rewrite fmap_app, fmap_cons in Hnd.
      apply NoDup_app in Hnd as (_ & Hnd & _).
      apply (Hnd _ Hdup). by left. }
  destruct (scan_shards _ _ _ _ _) as [shardIndices usedMap]. simpl in Hnone.
  subst shardIndices. by rewrite decide_True.
Qed.

(** X13: whatever the outcome of [migrateSlab], the slab keeps its key, its
    [MinShards] and the number of its shards, and every shard that is on
    the host of a candidate contract and on which no earlier shard of the
    slab is stays as it was. *)
Theorem migrate_keeps_good_shards {W : Type} `{Hosts W} (codec : Codec)
    (SectorSize : Z) (s : Slab) (contracts : list ContractMetadata)
    (dT uT : Z) (draws sd su : list nat) (w : W) :
  let res := run_val (migrateSlab codec SectorSize s contracts dT uT draws sd su w) in
  Key (mr_slab res) = Key s /\
  MinShards (mr_slab res) = MinShards s /\
  length (Shards (mr_slab res)) = length (Shards s) /\
  (forall i sector,
     Shards s !! i = Some sector ->
     Host sector ∈ HostKey <$> contracts ->
     Host sector ∉ Host <$> take i (Shards s) ->
     Shards (mr_slab res) !! i = Some sector).
Proof.
  intros res.
  destruct (migrate_outcome codec SectorSize s contracts dT uT draws sd su w)
    as [_ [Hs|[uploaded Hs]]]; fold res in Hs; rewrite Hs; [done|].
  simpl. split_and!; [done|done|apply overwrite_shards_length|].
  intros i sector Hi Hin Hfirst.
  rewrite overwrite_shards_other; [done|].
  intros Hsel. apply scan_shards_selected in Hsel as (sector' & Hi' & Hc).
  assert (sector' = sector) as -> by congruence.
  by destruct Hc.
Qed.

(** X14: [migrateSlab] filters the candidates in place, in the array of the
    caller: whatever the outcome, the array keeps its length and holds only
    contracts that it held before the call. *)
Theorem migrate_keeps_the_candidates_array {W : Type} `{Hosts W} (codec : Codec)
    (SectorSize : Z) (s : Slab) (contracts : list ContractMetadata)
    (dT uT : Z) (draws sd su : list nat) (w : W) :
  let res := run_val (migrateSlab codec SectorSize s contracts dT uT draws sd su w) in
  length (mr_contracts res) = length contracts /\
  Forall (fun c => c ∈ contracts) (mr_contracts res).
Proof.
  intros res.
  destruct (migrate_outcome codec SectorSize s contracts dT uT draws sd su w)
    as [[Hc|[slow Hc]] _]; fold res in Hc; rewrite Hc.
  - split; [done|]. by apply Forall_forall.
  - apply replacement_hosts_array.
Qed.

(** ** The contract spending recorder *)

Section RecorderFacts.
Context {CS B : Type}.
Variable zeroSpending : CS.
Variable Add : CS -> CS -> CS.
Variable RecordContractSpending : B -> list (FileContractID * CS) -> B * option error.

Lemma recorder_flush_accepted (sr : contractSpendingRecorder) (b : B) :
  (forall b records, (RecordContractSpending b records).2 = None) ->
  (recorder_flush RecordContractSpending sr b).1 = mkRecorder ∅ false.
Proof.
  intros Hbus. unfold recorder_flush. case_decide as Hsize.
  - specialize (Hbus b (map_to_list (contractSpendings sr))).
    destruct (RecordContractSpending _ _) as [b' [e|]]; [done|done].
  - simpl. f_equal. apply map_size_empty_iff. lia.
Qed.

Lemma recorder_step_inv (st : contractSpendingRecorder * B) ev :
  (forall b records, (RecordContractSpending b records).2 = None) ->
  recorder_inv st.1 ->
  recorder_inv (recorder_step zeroSpending Add RecordContractSpending st ev).1.
Proof.
  intros Hbus HI. destruct ev as [fcid cs| |]; simpl.
  - by intros ?.
  - destruct (contractSpendingsFlushTimer st.1) eqn:Ht; [|done].
    by rewrite recorder_flush_accepted.
  - unfold recorder_Stop. destruct (contractSpendingsFlushTimer st.1) eqn:Ht; [|done].
    by rewrite recorder_flush_accepted.
Qed.

Lemma recorder_run_inv evs : forall st : contractSpendingRecorder * B,
  (forall b records, (RecordContractSpending b records).2 = None) ->
  recorder_inv st.1 ->
  recorder_inv (recorder_run zeroSpending Add RecordContractSpending evs st).1.
Proof.
  induction evs as [|ev evs IH]; intros st Hbus HI; [done|].
  simpl. apply IH; [done|]. by apply recorder_step_inv.
Qed.

(** Recording a batch of spendings, one [Record] after the other. *)
Lemma recorder_Record_fold (recs : list (FileContractID * CS)) :
  forall (sr : contractSpendingRecorder) fcid,
  contractSpendings
    (fold_left (fun sr r => recorder_Record zeroSpending Add r.1 r.2 sr) recs sr) !! fcid
  = match filter (fun r => r.1 = fcid) recs with
    | [] => contractSpendings sr !! fcid
    | l => Some (fold_left Add l.*2 (default zeroSpending (contractSpendings sr !! fcid)))
    end.
Proof.
  induction recs as [|[k cs] recs IH]; intros sr fcid; [done|].
  simpl. rewrite IH. simpl.
  destruct (decide (k = fcid)) as [->|Hne].
  - rewrite filter_cons_True by done. rewrite lookup_insert_eq. simpl.
    by destruct (filter _ recs).
  - rewrite filter_cons_False by done. by rewrite lookup_insert_ne.
Qed.
End RecorderFacts.

(** X15: when the bus takes every batch, [Stop] leaves nothing behind:
    after any sequence of [Record] calls, timer flushes and [Stop] calls
    that ends with [Stop], the buffer of the recorder is empty and no timer
    is set. *)
Theorem recorder_stop_flushes_everything {CS B : Type} (zeroSpending : CS)
    (Add : CS -> CS -> CS)
    (RecordContractSpending : B -> list (FileContractID * CS) -> B * option error)
    (evs : list recorder_event) (b : B) :
  (forall b records, (RecordContractSpending b records).2 = None) ->
  (recorder_run zeroSpending Add RecordContractSpending (evs ++ [EvStop])
     (newContractSpendingRecorder, b)).1
  = mkRecorder ∅ false.
Proof.
  intros Hbus. unfold recorder_run. rewrite fold_left_app. simpl.
  pose proof (recorder_run_inv zeroSpending Add RecordContractSpending evs
                (newContractSpendingRecorder, b) Hbus ltac:(done)) as HI.
  unfold recorder_run in HI.
  destruct (fold_left _ evs _) as [sr b']. simpl in *.
  unfold recorder_Stop. destruct sr as [m [|]]; simpl in *.
  - by apply recorder_flush_accepted.
  - by rewrite HI.
Qed.

(** X16: a flush that the bus refuses keeps the buffer but leaves no timer
    set, and [Stop] flushes only when a timer is set: a [Stop] that follows
    makes no call to the bus, and the spendings stay in the buffer, unsent. *)
Theorem recorder_refused_flush_is_not_retried_by_stop {CS B : Type}
    (RecordContractSpending : B -> list (FileContractID * CS) -> B * option error)
    (sr : contractSpendingRecorder) (b : B) :
  contractSpendings sr <> ∅ ->
  (RecordContractSpending b (map_to_list (contractSpendings sr))).2 <> None ->
  let st := recorder_flush RecordContractSpending sr b in
  contractSpendings st.1 = contractSpendings sr /\
  contractSpendingsFlushTimer st.1 = false /\
  recorder_Stop RecordContractSpending st.1 st.2 = st.
Proof.
  intros Hne Hbus. unfold recorder_flush.
  rewrite decide_True.
  2:{ destruct (decide (size (contractSpendings sr) = 0%nat)) as [Hz|]; [|lia].
      by apply map_size_empty_iff in Hz. }
  destruct (RecordContractSpending _ _) as [b' [e|]]; [|done]. simpl. done.
Qed.

(** X17: between two flushes the buffer holds, for every contract, the
    spendings recorded for it added up in the order they were recorded,
    starting from the entry it had (from the zero value when it had none);
    a contract for which nothing was recorded keeps its entry or has none. *)
Theorem recorder_adds_up_per_contract {CS : Type} (zeroSpending : CS)
    (Add : CS -> CS -> CS) (recs : list (FileContractID * CS))
    (sr : contractSpendingRecorder) (fcid : FileContractID) :
  contractSpendings
    (fold_left (fun sr r => recorder_Record zeroSpending Add r.1 r.2 sr) recs sr) !! fcid
  = match filter (fun r => r.1 = fcid) recs with
    | [] => contractSpendings sr !! fcid
    | l => Some (fold_left Add l.*2 (default zeroSpending (contractSpendings sr !! fcid)))
    end.
Proof. apply recorder_Record_fold. Qed.

(** ** parallelDownloadSlab: failed tasks are replaced *)

Lemma download_successes_perm ch1 ch2 :
  ch1 ≡ₚ ch2 -> download_successes ch1 = download_successes ch2.
Proof. intros Hp. unfold download_successes. by rewrite Hp. Qed.

Lemma download_successes_app ch1 ch2 :
  download_successes (ch1 ++ ch2)
  = (download_successes ch1 + download_successes ch2)%nat.
Proof. unfold download_successes. by rewrite filter_app, length_app. Qed.

Lemma download_successes_cons r ch :
  download_successes (r :: ch)
  = ((if decide (dp_err r = None) then 1 else 0) + download_successes ch)%nat.
Proof.
  unfold download_successes. case_decide.
  - by rewrite filter_cons_True.
  - by rewrite filter_cons_False.
Qed.

(** A response of a host with a free slot fills that slot, and the slots
    of the other hosts stay as they are. *)
Lemma fill_shard_free hk data (secs : list Sector) : forall shards,
  slot_free secs shards hk ->
  exists i s, secs !! i = Some s /\ Host s = hk /\
    fill_shard hk data secs shards = Some (<[i := data]> shards).
Proof.
  induction secs as [|s0 secs IH]; intros shards (i & s & Hs & Hhk & Hsh); [done|].
  destruct shards as [|sh shards]; [done|]. simpl.
  case_decide as Hc.
  - exists 0%nat, s0. by destruct Hc.
  - destruct i as [|i]; simpl in *.
    + injection Hs as ->. injection Hsh as ->. by destruct Hc.
    + destruct (IH shards) as (i' & s' & Hs' & Hhk' & ->); [by exists i, s|].
      by exists (S i'), s'.
Qed.

Lemma slot_free_insert secs shards hk i s data :
  secs !! i = Some s -> Host s <> hk ->
  slot_free secs shards hk -> slot_free secs (<[i := data]> shards) hk.
Proof.
  intros Hs Hne (i' & s' & Hs' & Hhk' & Hsh'). exists i', s'.
  split_and!; [done|done|]. rewrite list_lookup_insert_ne; [done|].
  intros ->. congruence.
Qed.

Section DownloadRetry.
Context {W : Type} `{Hosts W} (codec : Codec).
Implicit Types (st : @download_state W) (ch : list download_resp).

(** A task started when no timeout is published: one response; a success
    is of a host that holds a shard of the slab; a reliable candidate
    answers with a success. *)
Lemma download_spawn_quiet timeout ss contracts st c :
  genuine_errors W -> quiet_timers W timeout ->
  contracts !! d_hostIndex st = Some c ->
  exists r w',
    download_spawn codec timeout ss contracts st
    = (mkDState (S (d_hostIndex st)) (d_inflight st + 1) (d_rem st) (d_shards st)
         (d_errs st) w' (d_spawned st ++ [d_hostIndex st]), [r]) /\
    dp_hostIndex r = d_hostIndex st /\ dp_timeout r = false /\
    (dp_err r = None -> HostKey c ∈ Host <$> Shards (slab ss)) /\
    (reliable_download W ss c -> dp_err r = None).
Proof.
  intros Hg Hq Hc. unfold download_spawn, download_worker.
  rewrite (list_lookup_total_correct _ _ _ Hc).
  rewrite (Hq (d_world st) c).
  destruct (Hg (d_world st) c) as (Hlock & _ & Hdown).
  destruct (AcquireContract _ _ _) as [e|] eqn:Hacq.
  - eexists _, _. split; [done|]. split_and!; [done| |done|].
    + unfold dp_timeout. simpl. by destruct (Hlock _ _ Hacq).
    + intros [_ Hr]. destruct (Hr (d_world st) 0%N 0 0) as [Hr' _]. congruence.
  - destruct (List.find _ _) as [shard|] eqn:Hfind.
    + destruct (SectorRegion codec ss) as [offset length].
      specialize (Hdown (Root shard) offset length).
      destruct (DownloadSector _ _ _ _ _) as [w' [data err]] eqn:Hd. simpl in *.
      eexists _, _. split; [done|]. split_and!; [done| | |].
      * unfold dp_timeout. simpl. destruct err as [e|]; [by apply Hdown|done].
      * intros _. apply find_some in Hfind as [Hin Heq].
        apply bool_decide_eq_true in Heq. rewrite <- Heq.
        apply list_elem_of_fmap_2. by apply list_elem_of_In.
      * intros [_ Hr].
        destruct (Hr (d_world st) (Root shard) offset length) as [_ Hr'].
        rewrite Hd in Hr'. done.
    + eexists _, _. split; [done|]. split_and!; [done|done|done|].
      intros [Hhas _]. exfalso.
      apply list_elem_of_fmap in Hhas as (s & Hs & Hin).
      apply list_elem_of_In in Hin.
      pose proof (find_none _ _ Hfind s Hin) as Hno. simpl in Hno.
      apply bool_decide_eq_false in Hno. done.
Qed.

(** What a spawn does to the invariant, whether in the first round or as
    the replacement of a failed task. *)
Lemma download_spawn_retry good timeout ss contracts pending st ch :
  genuine_errors W -> quiet_timers W timeout ->
  (forall c, good c = true -> reliable_download W ss c) ->
  (d_hostIndex st < length contracts)%nat ->
  download_retry_inv good ss contracts (S pending)
    (mkDState (d_hostIndex st) (d_inflight st) (d_rem st) (d_shards st) (d_errs st)
       (d_world st) (d_spawned st)) ch ->
  download_retry_inv good ss contracts pending
    (download_spawn codec timeout ss contracts st).1
    (ch ++ (download_spawn codec timeout ss contracts st).2) /\
  length (download_spawn codec timeout ss contracts st).2 = 1%nat /\
  d_hostIndex (download_spawn codec timeout ss contracts st).1 = S (d_hostIndex st).
Proof.
  intros Hg Hq Hgood Hlt (Hin & Hfit & Hk & Hle & Hnt & Hes & Hnd & Hidx & Hfree).
  simpl in *.
  destruct (lookup_lt_is_Some_2 contracts (d_hostIndex st) Hlt) as [c Hc].
  destruct (download_spawn_quiet timeout ss contracts st c Hg Hq Hc)
    as (r & w' & -> & Hri & Hrt & Hhas & Hrel).
  simpl. split; [|done].
  unfold download_retry_inv. simpl.
  rewrite length_app, download_successes_app, download_successes_cons. simpl.
  rewrite (good_from_step good contracts _ c Hc) in Hle.
  specialize (Hk Hlt).
  split_and!.
  - lia.
  - lia.
  - intros _. lia.
  - unfold download_successes at 2. simpl.
    destruct (good c) eqn:Hgc.
    + rewrite decide_True by (by apply Hrel, Hgood). lia.
    + case_decide; lia.
  - apply Forall_app. split; [done|]. by repeat constructor.
  - done.
  - rewrite fmap_app. simpl. apply NoDup_app.
    split_and!; [done| |apply NoDup_singleton].
    intros x Hx Hx'. apply list_elem_of_singleton in Hx'. subst x.
    apply list_elem_of_fmap in Hx as (r' & Hr' & Hin').
    pose proof (proj1 (Forall_forall _ _) Hidx r' Hin') as [Hlt' _]. lia.
  - apply Forall_app. split.
    + eapply Forall_impl; [exact Hidx|]. intros r' [? ?]. split; [lia|done].
    + apply Forall_cons. split; [|constructor]. split; [lia|].
      by rewrite Hri, (list_lookup_total_correct _ _ _ Hc).
  - intros j c' Hc' Hj Hhas'. apply (Hfree j c' Hc'); [|done].
    destruct Hj as [Hj|Hj].
    + left. lia.
    + rewrite fmap_app in Hj. apply elem_of_app in Hj as [Hj|Hj]; [by right|].
      simpl in Hj. apply list_elem_of_singleton in Hj. left. lia.
Qed.

Lemma download_init_retry good timeout ss contracts count : forall st ch,
  genuine_errors W -> quiet_timers W timeout ->
  (forall c, good c = true -> reliable_download W ss c) ->
  download_retry_inv good ss contracts count st ch ->
  download_retry_inv good ss contracts 0
    (download_init codec timeout ss contracts count st ch).1
    (download_init codec timeout ss contracts count st ch).2 /\
  (length (download_init codec timeout ss contracts count st ch).2
   = length ch + count)%nat /\
  d_hostIndex (download_init codec timeout ss contracts count st ch).1
  = (d_hostIndex st + count)%nat.
Proof.
  induction count as [|count IH]; intros st ch Hg Hq Hgood HI.
  { simpl. split; [done|]. lia. }
  cbn [download_init].
  assert (Hlt : (d_hostIndex st < length contracts)%nat).
  { destruct HI as (_ & Hfit & _). lia. }
  destruct (download_spawn_retry good timeout ss contracts count st ch Hg Hq Hgood Hlt)
    as (HI' & Hlen & Hhi); [by destruct st|].
  destruct (download_spawn _ _ _ _ _) as [st' out]. simpl in *.
  destruct (IH st' (ch ++ out) Hg Hq Hgood HI') as (HI'' & Hlen' & Hhi').
  split; [done|]. rewrite Hlen', Hhi', length_app, Hlen, Hhi. lia.
Qed.

Lemma download_body_retry good timeout ss contracts st ch r ch' :
  genuine_errors W -> quiet_timers W timeout ->
  (forall c, good c = true -> reliable_download W ss c) ->
  NoDup (HostKey <$> contracts) ->
  download_retry_inv good ss contracts 0 st ch -> ch ≡ₚ r :: ch' ->
  download_retry_inv good ss contracts 0 (download_body codec timeout ss contracts r st).1
    (ch' ++ (download_body codec timeout ss contracts r st).2) /\
  (download_left contracts (download_body codec timeout ss contracts r st).1
     (ch' ++ (download_body codec timeout ss contracts r st).2)
   < download_left contracts st ch)%nat.
Proof.
  intros Hg Hq Hgood Hkeys (Hin & Hfit & Hk & Hle & Hnt & Hes & Hnd & Hidx & Hfree) Hperm.
  assert (Hlen : length ch = S (length ch')) by (by rewrite Hperm).
  rewrite (download_successes_perm _ _ Hperm), download_successes_cons in Hle.
  assert (Hfree' : forall j c, contracts !! j = Some c ->
            (d_hostIndex st <= j)%nat \/ j ∈ dp_hostIndex <$> (r :: ch') ->
            HostKey c ∈ Host <$> Shards (slab ss) ->
            slot_free (Shards (slab ss)) (d_shards st) (HostKey c)).
  { intros j c Hc Hj. apply (Hfree j c Hc). by rewrite Hperm. }
  clear Hfree.
  rewrite Hperm in Hnt, Hnd, Hidx.
  apply Forall_cons in Hnt as [Hrt Hnt].
  apply Forall_cons in Hidx as [[Hrlt Hrhas] Hidx].
  rewrite fmap_cons in Hnd. apply NoDup_cons in Hnd as [Hri Hnd].
  unfold download_body. fold (dp_timeout r). rewrite Hrt.
  destruct (dp_err r) as [e|] eqn:He; simpl.
  - rewrite decide_False in Hle by done.
    assert (Hes' : Forall (fun he => HostError_Is he errDownloadSectorTimeout = false)
                     (d_errs st ++ [mkHostError (HostKey (contracts !!! dp_hostIndex r)) e])).
    { apply Forall_app. split; [done|]. repeat constructor.
      unfold dp_timeout in Hrt. by rewrite He in Hrt. }
    case_decide as Hlt.
    + set (st1 := mkDState _ _ _ _ _ _ _).
      destruct (download_spawn_retry good timeout ss contracts 0 st1 ch' Hg Hq Hgood Hlt)
        as (HI' & Hlen1 & Hhi1).
      { subst st1. unfold download_retry_inv. simpl. specialize (Hk Hlt).
        split_and!; try done; try lia.
        intros j c Hc Hj. apply (Hfree' j c Hc).
        destruct Hj as [Hj|Hj]; [by left|right; by right]. }
      split; [done|].
      unfold download_left. rewrite length_app, Hlen1, Hhi1. subst st1. simpl. lia.
    + simpl. rewrite app_nil_r. split.
      * unfold download_retry_inv. simpl. split_and!; try done; try lia.
        intros j c Hc Hj. apply (Hfree' j c Hc).
        destruct Hj as [Hj|Hj]; [by left|right; by right].
      * unfold download_left. simpl. lia.
  - rewrite decide_True in Hle by done.
    destruct (lookup_lt_is_Some_2 contracts (dp_hostIndex r)) as [cr Hcr]; [lia|].
    rewrite (list_lookup_total_correct _ _ _ Hcr) in *.
    destruct (fill_shard_free (HostKey cr) (dp_shard r) (Shards (slab ss)) (d_shards st))
      as (i & s & Hs & Hhk & ->).
    { apply (Hfree' _ cr Hcr); [right; by left|by apply Hrhas]. }
    simpl. rewrite app_nil_r. split.
    + unfold download_retry_inv. simpl. split_and!; try done; try lia.
      intros j c Hc Hj Hhas.
      apply (slot_free_insert _ _ _ i s); [done| |].
      * rewrite Hhk. intros Heq.
        assert (dp_hostIndex r = j) as Hjr.
        { eapply (NoDup_lookup (HostKey <$> contracts)); [done| |].
          - by rewrite list_lookup_fmap, Hcr.
          - by rewrite list_lookup_fmap, Hc, Heq. }
        subst j. destruct Hj as [Hj|Hj]; [lia|done].
      * apply (Hfree' j c Hc); [|done].
        destruct Hj as [Hj|Hj]; [by left|right; by right].
    + unfold download_left. simpl. lia.
Qed.
End DownloadRetry.

(** X18: failed downloads are replaced by the candidates not contacted yet.
    When no timeout is published, the errors are genuine, the candidates
    are on hosts that differ from one another and at least [MinShards] of
    them can be relied on (each holds a shard of the slab and serves it),
    [parallelDownloadSlab] returns success, however many of the other
    candidates fail and in whatever order the responses arrive. *)
Theorem download_succeeds_with_enough_reliable_hosts {W : Type} `{Hosts W}
    (codec : Codec) (good : ContractMetadata -> bool)
    (ss : SlabSlice) (contracts : list ContractMetadata)
    (timeout : Z) (sched : list nat) (w : W) :
  genuine_errors W -> quiet_timers W timeout ->
  (forall c, good c = true -> reliable_download W ss c) ->
  NoDup (HostKey <$> contracts) ->
  0 <= MinShards (slab ss)
  <= Z.of_nat (length (filter (fun c => good c = true) contracts)) ->
  (2 * length contracts <= length sched)%nat ->
  exists res shards,
    parallelDownloadSlab codec ss contracts timeout sched w = Done res /\
    dres res = Ok (shards, []) /\
    length shards = length (Shards (slab ss)).
Proof.
  intros Hg Hq Hgood Hkeys [Hmin Hcount] Hsched.
  assert (Hfit : (Z.to_nat (MinShards (slab ss)) <= length contracts)%nat).
  { pose proof (length_filter (fun c => good c = true) contracts). lia. }
  unfold parallelDownloadSlab. rewrite decide_False by lia.
  pose proof (download_loop_order codec timeout ss contracts sched w Hfit) as Hord.
  destruct (download_init_retry codec good timeout ss contracts
              (Z.to_nat (MinShards (slab ss))) (download_start ss w) [] Hg Hq Hgood)
    as (HI1 & Hlen1 & Hhi1).
  { unfold download_retry_inv, download_start. simpl.
    split_and!; [done|lia|intros _; lia| |constructor..|].
    - unfold good_from, download_successes. rewrite drop_0. simpl. lia.
    - intros j c Hc _ Hhas.
      apply list_elem_of_fmap in Hhas as (s & Hs & Hin).
      apply list_elem_of_lookup in Hin as [i Hi].
      exists i, s. split_and!; [done|done|].
      apply lookup_replicate_2. by eapply lookup_lt_Some. }
  simpl in Hord, Hlen1, Hhi1.
  destruct (download_init _ _ _ _ _ _ _) as [st1 ch1] eqn:Einit. simpl in *.
  destruct (recv_loop_total download_cond (download_body codec timeout ss contracts)
              (download_retry_inv good ss contracts 0) (download_left contracts))
    with (sched := sched) (st := st1) (ch := ch1) as (st' & ch' & Hrun & HI' & Hc).
  - intros st c (Hin & _) Hcond. unfold download_cond in Hcond.
    apply andb_true_iff in Hcond as [_ Hcond]. apply Z.ltb_lt in Hcond.
    intros ->. simpl in Hin. lia.
  - intros st c r c' HI _ Hp. by apply (download_body_retry codec good _ _ _ st c).
  - done.
  - unfold download_left. lia.
  - rewrite Hrun in Hord |- *. simpl in Hord.
    destruct HI' as (Hin & Hfit' & Hk & Hle & Hnt & Hes & _).
    destruct Hord as (_ & _ & Hlen & _ & _).
    assert (Hrem : d_rem st' <= 0).
    { unfold download_cond in Hc. apply andb_false_iff in Hc as [Hc|Hc];
        apply Z.ltb_ge in Hc; [done|].
      destruct ch' as [|x ch']; [|simpl in Hin; lia].
      unfold download_successes in Hle. simpl in Hle.
      destruct (decide (d_hostIndex st' < length contracts)%nat) as [Hlt|Hge].
      - specialize (Hk Hlt). simpl in Hk. lia.
      - rewrite good_from_end in Hle by lia. lia. }
    simpl. unfold download_finish. rewrite decide_False by lia.
    rewrite (collect_slow_quiet _ _ _ Hes). eexists _, _. by split_and!.
Qed.

(** ** The properties on concrete inputs *)

Lemma Patchy_genuine : genuine_errors Patchy.
Proof.
  intros w c. split_and!.
  - intros p e He. done.
  - intros data e. simpl. case_decide; simpl; [|done]. by intros [= <-].
  - intros root offset length e. simpl. case_decide; simpl; [|done]. by intros [= <-].
Qed.

Lemma Patchy_quiet timeout : quiet_timers Patchy timeout.
Proof. intros w c. simpl. apply andb_false_r. Qed.

Lemma Patchy_nonempty : nonempty_downloads Patchy.
Proof.
  intros w c root offset length. simpl. case_decide; simpl; [done|]. by intros _.
Qed.


Lemma Patchy_reliable_download c :
  host_1_or_3 c = true ->
  reliable_download Patchy (mkSlabSlice wide_slab 0 1) c.
Proof.
  unfold host_1_or_3. intros Hc. split.
  - apply orb_true_iff in Hc as [Hc|Hc]; apply N.eqb_eq in Hc; rewrite Hc; simpl.
    + by left.
    + right. right. by left.
  - intros w root offset length. split; [done|]. simpl.
    case_decide as Heq; [|done]. rewrite Heq in Hc. done.
Qed.


Lemma download_always_returns_witness :
  exists res,
    parallelDownloadSlab mirror_codec (mkSlabSlice wide_slab 0 1)
      [hostA; hostB; hostC] 0 [0; 0; 0; 0; 0; 0]%nat patchy = Done res.
Proof.
  apply (download_always_returns mirror_codec (mkSlabSlice wide_slab 0 1)
           [hostA; hostB; hostC] 0 [0; 0; 0; 0; 0; 0]%nat patchy).
  - exact Patchy_genuine.
  - simpl. lia.
Defined.

(** One shard is needed and the first candidate serves it: one slot is
    filled, the other stays empty. *)
Lemma download_gathers_min_shards_witness :
  Z.of_nat (filled_slots [[x01]; []]) = MinShards sound_slab.
Proof.
  apply (download_gathers_min_shards mirror_codec (mkSlabSlice sound_slab 0 1)
           [hostA; hostC] 0 [0; 0; 0; 0]%nat patchy [[x01]; []] []).
  - exact Patchy_nonempty.
  - simpl. lia.
  - vm_compute. reflexivity.
Defined.

(** The host of [hostB] refuses; the shards of the hosts of [hostA] and
    [hostC] are the two that are needed. *)
Lemma download_succeeds_with_enough_reliable_hosts_witness :
  exists res shards,
    parallelDownloadSlab mirror_codec (mkSlabSlice wide_slab 0 1)
      [hostA; hostB; hostC] 0 [0; 0; 0; 0; 0; 0]%nat patchy = Done res /\
    dres res = Ok (shards, []) /\
    length shards = length (Shards wide_slab).
Proof.
  apply (download_succeeds_with_enough_reliable_hosts mirror_codec host_1_or_3
           (mkSlabSlice wide_slab 0 1) [hostA; hostB; hostC] 0
           [0; 0; 0; 0; 0; 0]%nat patchy).
  - exact Patchy_genuine.
  - exact (Patchy_quiet 0).
  - exact Patchy_reliable_download.
  - compute_done.
  - vm_compute. split; discriminate.
  - simpl. lia.
Defined.

(** Two slices of five bytes; the span of four bytes from the third on ends
    in the second slice. *)
Lemma slabsForDownload_exact_span_witness :
  exists h' s' l',
    slabsForDownload [[slice5; slice5]] (GoSlice.mk 0 0 2) 3 4 = Some (h', s') /\
    GoSlice.read h' s' = Some l' /\
    slices_span l' = take (Z.to_nat 4) (drop (Z.to_nat 3) (slices_span [slice5; slice5])) /\
    total_Length l' = 4.
Proof.
  apply (slabsForDownload_exact_span [[slice5; slice5]] (GoSlice.mk 0 0 2)
           [slice5; slice5] 3 4).
  - reflexivity.
  - discriminate.
  - repeat constructor; simpl; lia.
  - reflexivity.
  - lia.
  - lia.
  - simpl. lia.
Defined.

Lemma slabsForDownload_of_nothing_panics_witness :
  slabsForDownload [[slice5]] (GoSlice.mk 0 0 0) 0 0 = None.
Proof.
  apply (slabsForDownload_of_nothing_panics [[slice5]] (GoSlice.mk 0 0 0) 0 0).
  reflexivity.
Defined.

(** The two sectors of [stale_slab] are on the hosts 1 and 4; with a session
    for each, both roots are sent for deletion. *)
Lemma deleteSlabs_deletes_every_root_once_witness :
  del_calls (run_val (deleteSlabs [stale_slab] [willing 1%N; willing 4%N] [])) ≫= snd
  ≡ₚ Root <$> ([stale_slab] ≫= Shards).
Proof.
  apply (deleteSlabs_deletes_every_root_once [stale_slab] [willing 1%N; willing 4%N] []).
  - simpl. apply NoDup_cons. split; [|apply NoDup_singleton].
    intros Hin. apply list_elem_of_singleton in Hin. discriminate.
  - simpl. repeat constructor.
Defined.

Lemma migrate_healthy_slab_is_untouched_witness :
  migrateSlab mirror_codec 4 sound_slab [hostA; hostB; hostC] 0 0 [] [] [] steady
  = Done (mkMResult (Ok ()) sound_slab [hostA; hostB; hostC] steady [] [] None).
Proof.
  apply (migrate_healthy_slab_is_untouched mirror_codec 4 sound_slab
           [hostA; hostB; hostC] 0 0 [] [] [] steady).
  - simpl. apply NoDup_cons. split; [|apply NoDup_singleton].
    intros Hin. apply list_elem_of_singleton in Hin. discriminate.
  - simpl. repeat constructor.
Defined.

(** Two spendings for one contract, a flush by the timer, a third spending
    and the stop. *)
Lemma recorder_stop_flushes_everything_witness :
  (recorder_run 0 Z.add keeping_bus
     ([EvRecord 1%N 5; EvRecord 1%N 7; EvTimer; EvRecord 2%N 1] ++ [EvStop])
     (newContractSpendingRecorder, [])).1
  = mkRecorder ∅ false.
Proof.
  apply (recorder_stop_flushes_everything 0 Z.add keeping_bus
           [EvRecord 1%N 5; EvRecord 1%N 7; EvTimer; EvRecord 2%N 1] []).
  intros b records. reflexivity.
Defined.

Lemma recorder_refused_flush_is_not_retried_by_stop_witness :
  let sr := mkRecorder {[1%N := 5]} true in
  let st := recorder_flush bus_down sr [] in
  contractSpendings st.1 = contractSpendings sr /\
  contractSpendingsFlushTimer st.1 = false /\
  recorder_Stop bus_down st.1 st.2 = st.
Proof.
  apply (recorder_refused_flush_is_not_retried_by_stop bus_down
           (mkRecorder {[1%N := 5]} true) []).
  - simpl. apply insert_non_empty.
  - simpl. discriminate.
Defined.

(** ** migrateSlab: the hosts offered to the upload *)

Section DownloadQuiet.
Context {W : Type} `{Hosts W} (codec : Codec).
Implicit Types (st : @download_state W) (ch : list download_resp).

Lemma download_worker_quiet timeout ss contracts hostIndex (w : W) :
  genuine_errors W -> quiet_timers W timeout ->
  Forall (fun r => dp_timeout r = false)
    (download_worker codec timeout ss contracts hostIndex w).2.
Proof.
  intros Hg Hq. unfold download_worker.
  rewrite (Hq w (contracts !!! hostIndex)).
  destruct (Hg w (contracts !!! hostIndex)) as (Hlock & _ & Hdown).
  destruct (AcquireContract _ _ _) as [e|] eqn:Hacq.
  - repeat constructor. unfold dp_timeout. simpl. by destruct (Hlock _ _ Hacq).
  - destruct (List.find _ _) as [shard|]; [|by repeat constructor].
    destruct (SectorRegion codec ss) as [offset length].
    specialize (Hdown (Root shard) offset length).
    destruct (DownloadSector _ _ _ _ _) as [w' [data err]]. simpl in *.
    repeat constructor. unfold dp_timeout. simpl.
    destruct err as [e|]; [by apply Hdown|done].
Qed.

Lemma download_spawn_keeps_quiet timeout ss contracts st ch :
  genuine_errors W -> quiet_timers W timeout -> download_quiet_inv st ch ->
  download_quiet_inv (download_spawn codec timeout ss contracts st).1
    (ch ++ (download_spawn codec timeout ss contracts st).2).
Proof.
  intros Hg Hq [Hch Hes]. unfold download_spawn.
  pose proof (download_worker_quiet timeout ss contracts (d_hostIndex st)
                (d_world st) Hg Hq) as Hout.
  destruct (download_worker _ _ _ _ _ _) as [w' out]. simpl in *.
  split; [by apply Forall_app|done].
Qed.

Lemma download_init_keeps_quiet timeout ss contracts count : forall st ch,
  genuine_errors W -> quiet_timers W timeout -> download_quiet_inv st ch ->
  download_quiet_inv (download_init codec timeout ss contracts count st ch).1
    (download_init codec timeout ss contracts count st ch).2.
Proof.
  induction count as [|count IH]; intros st ch Hg Hq HI; [done|].
  cbn [download_init].
  pose proof (download_spawn_keeps_quiet timeout ss contracts st ch Hg Hq HI) as HI'.
  destruct (download_spawn _ _ _ _ _) as [st' out]. by apply IH.
Qed.

Lemma download_body_keeps_quiet timeout ss contracts st ch r ch' :
  genuine_errors W -> quiet_timers W timeout ->
  download_quiet_inv st ch -> ch ≡ₚ r :: ch' ->
  download_quiet_inv (download_body codec timeout ss contracts r st).1
    (ch' ++ (download_body codec timeout ss contracts r st).2).
Proof.
  intros Hg Hq [Hch Hes] Hperm.
  rewrite Hperm in Hch. apply Forall_cons in Hch as [Hr Hch'].
  unfold download_body. destruct (dp_err r) as [e|] eqn:He; simpl.
  - assert (Hes' : Forall (fun he => HostError_Is he errDownloadSectorTimeout = false)
                     (d_errs st ++ [mkHostError (HostKey (contracts !!! dp_hostIndex r)) e])).
    { apply Forall_app. split; [done|]. repeat constructor.
      unfold dp_timeout in Hr. by rewrite He in Hr. }
    case_decide.
    + apply download_spawn_keeps_quiet; [done|done|]. by split.
    + simpl. rewrite app_nil_r. by split.
  - destruct (fill_shard _ _ _ _); simpl; rewrite app_nil_r; by split.
Qed.

(** A download in which no timeout is published reports no slow host. *)
Lemma download_reports_no_slow_host timeout ss contracts sched (w : W) shards slow :
  genuine_errors W -> quiet_timers W timeout ->
  dres (run_val (parallelDownloadSlab codec ss contracts timeout sched w))
  = Ok (shards, slow) ->
  slow = [].
Proof.
  intros Hg Hq. unfold parallelDownloadSlab. case_decide; [done|].
  rewrite run_val_map.
  assert (HI : download_quiet_inv
    (run_val (recv_loop download_cond (download_body codec timeout ss contracts) sched
       (download_init codec timeout ss contracts (Z.to_nat (MinShards (slab ss)))
          (download_start ss w) []).1
       (download_init codec timeout ss contracts (Z.to_nat (MinShards (slab ss)))
          (download_start ss w) []).2)).1
    (run_val (recv_loop download_cond (download_body codec timeout ss contracts) sched
       (download_init codec timeout ss contracts (Z.to_nat (MinShards (slab ss)))
          (download_start ss w) []).1
       (download_init codec timeout ss contracts (Z.to_nat (MinShards (slab ss)))
          (download_start ss w) []).2)).2).
  { apply (recv_loop_safe download_cond (download_body codec timeout ss contracts)
             download_quiet_inv).
    - intros st ch r ch' HI _ Hperm. by apply (download_body_keeps_quiet _ _ _ st ch).
    - apply download_init_keeps_quiet; [done|done|]. by split. }
  destruct (run_val _) as [st ch]. simpl in *. destruct HI as [_ Hes].
  unfold download_finish. case_decide; [done|].
  rewrite (collect_slow_quiet _ _ _ Hes). simpl. by intros [= _ <-].
Qed.
End DownloadQuiet.

Lemma replacement_hosts_sub usedMap contracts slowHosts draws c :
  c ∈ (replacement_hosts usedMap contracts slowHosts draws).2 ->
  c ∈ (replacement_hosts usedMap contracts slowHosts draws).1.
Proof.
  unfold replacement_hosts. destruct (filter_in_place _ _ _ _) as [arr k]. simpl.
  intros Hc. apply elem_of_take in Hc as (i & Hi & _).
  by eapply list_elem_of_lookup_2.
Qed.

(** X19: when no timeout is published and the errors are genuine, the
    candidates [migrateSlab] offers to the upload of the migrated shards
    are contracts of the caller on hosts that hold no shard of the slab. *)
Theorem migrate_offers_only_unused_hosts {W : Type} `{Hosts W} (codec : Codec)
    (SectorSize : Z) (s : Slab) (contracts : list ContractMetadata)
    (dT uT : Z) (draws sd su : list nat) (w : W)
    (filtered : list ContractMetadata) :
  genuine_errors W -> quiet_timers W dT ->
  mr_candidates (run_val (migrateSlab codec SectorSize s contracts dT uT draws sd su w))
  = Some filtered ->
  Forall (fun c => c ∈ contracts /\ HostKey c ∉ Host <$> Shards s) filtered.
Proof.
  intros Hg Hq. unfold migrateSlab.
  destruct (scan_shards_spec (list_to_set (HostKey <$> contracts)) (Shards s) 0 ∅ [])
    as (_ & _ & _ & Hused).
  destruct (scan_shards _ _ _ _ _) as [shardIndices usedMap]. simpl in Hused.
  case_decide; [done|]. case_decide; [done|]. case_decide; [done|].
  pose proof (download_reports_no_slow_host codec dT
                (mkSlabSlice s 0 (wrap32 (MinShards s * SectorSize))) contracts sd w)
    as Hslow.
  destruct (parallelDownloadSlab _ _ _ _ _ _) as [d|d|d]; simpl; [|done..].
  simpl in Hslow.
  destruct (dres d) as [[shards slow]|e|msg]; simpl; [|done..].
  specialize (Hslow shards slow Hg Hq eq_refl). subst slow.
  destruct (Reconstruct codec s _) as [e|shards']; simpl; [done|].
  pose proof (replacement_hosts_without_slow usedMap contracts draws) as Hfree.
  pose proof (replacement_hosts_array usedMap contracts [] draws) as [_ Harr].
  pose proof (replacement_hosts_sub usedMap contracts [] draws) as Hsub.
  destruct (replacement_hosts usedMap contracts [] draws) as [arr cands].
  simpl in *. rewrite run_val_map.
  assert (Hgoal : Forall (fun c => c ∈ contracts /\ HostKey c ∉ Host <$> Shards s) cands).
  { apply Forall_forall. intros c Hc.
    pose proof (proj1 (Forall_forall _ _) Harr c (Hsub c Hc)) as Hin.
    split; [done|]. intros Hhas.
    apply (proj1 (Forall_forall _ _) Hfree c Hc).
    apply Hused. right. split; [|done].
    apply elem_of_list_to_set. by apply list_elem_of_fmap_2. }
  destruct (ures (run_val _)) as [[uploaded slow']|e|msg]; simpl;
    by intros [= <-].
Qed.

(** The slab [stale_slab] has a shard on a host (key 4) that is lost: the
    candidates offered for it are not on the host of [hostA], which holds
    the other shard. *)
Lemma migrate_offers_only_unused_hosts_witness :
  Forall (fun c => c ∈ [hostA; hostB; hostC] /\ HostKey c ∉ Host <$> Shards stale_slab)
    [hostC; hostB].
Proof.
  apply (migrate_offers_only_unused_hosts mirror_codec 4 stale_slab
           [hostA; hostB; hostC] 0 0 [] [0; 0; 0; 0; 0; 0]%nat
           [0; 0; 0; 0; 0; 0]%nat patchy [hostC; hostB]).
  - exact Patchy_genuine.
  - exact (Patchy_quiet 0).
  - vm_compute. reflexivity.
Defined.
